(** * LRU-K replacer of the BusTub buffer pool: model and properties

    Shallow embedding of [src/buffer/lru_k_replacer.cpp] and of the
    [LRUKNode] / [LRUKReplacer] classes of
    [src/include/buffer/lru_k_replacer.h].

    - [size_t] values are integers in [0, 2^64) with wrap-around written out.
    - [std::unordered_map<frame_id_t, LRUKNode>] is a [gmap Z LRUKNode].
    - A member function is a function from the object before the call to
      an outcome (normal return, thrown exception, or undefined behaviour)
      and the object after.
    - The mutex only serialises calls; one call is one atomic step here. *)

From Stdlib Require Import ZArith Lia.
From stdpp Require Import gmap list.

Local Open Scope Z_scope.

(** ** Machine integers *)

Module SizeT.
(** [size_t] on the 64-bit targets BusTub builds for. *)
Definition modulus : Z := 2 ^ 64.
Definition wrap (z : Z) : Z := z mod modulus.
(** [std::numeric_limits<size_t>::max()] *)
Definition max : Z := modulus - 1.
Definition sub (a b : Z) : Z := wrap (a - b).
(** [x++] and [x--] *)
Definition incr (a : Z) : Z := wrap (a + 1).
Definition decr (a : Z) : Z := wrap (a - 1).
Definition in_range (z : Z) : Prop := 0 <= z < modulus.
End SizeT.

(** Modelled from the spec: [frame_id_t] is declared in [common/config.h],
    which is not part of the sources at hand; the spec calls it "an integer
    frame_id".  It is a signed integer type, so negative values exist. *)
Definition frame_id_t : Type := Z.

(** [static_cast<size_t>(frame_id)]: conversion of a signed integer to
    [size_t] is reduction modulo 2^64. *)
Definition static_cast_size_t (frame_id : frame_id_t) : Z := SizeT.wrap frame_id.

(** ** Data model (lru_k_replacer.h) *)

Inductive AccessType := Unknown | Lookup | Scan | Index.

Definition is_Scan (a : AccessType) : bool :=
  match a with Scan => true | _ => false end.

(** [class LRUKNode]; the front of [history_] is the head of the list.
    The node's own [k_] is called [node_k_] because the replacer has a
    member of the same name. *)
Record LRUKNode := mkLRUKNode {
  history_ : list Z;
  fid_ : frame_id_t;
  node_k_ : Z;
  is_evictable_ : bool
}.

(** [LRUKNode() {fid_=-1;k_=0;}] with [is_evictable_{false}] *)
Definition LRUKNode_default : LRUKNode :=
  {| history_ := []; fid_ := -1; node_k_ := 0; is_evictable_ := false |}.

Definition set_history (h : list Z) (n : LRUKNode) : LRUKNode :=
  {| history_ := h; fid_ := fid_ n; node_k_ := node_k_ n;
     is_evictable_ := is_evictable_ n |}.

Definition set_is_evictable (b : bool) (n : LRUKNode) : LRUKNode :=
  {| history_ := history_ n; fid_ := fid_ n; node_k_ := node_k_ n;
     is_evictable_ := b |}.

(** [history_.size()] *)
Definition history_size (n : LRUKNode) : Z := Z.of_nat (length (history_ n)).

(** [LRUKNode::GetBackKTimeStamp] *)
Definition GetBackKTimeStamp (n : LRUKNode) : Z :=
  match history_ n with
  | [] => SizeT.max
  | t :: _ => t
  end.

(** [history_.push_back(t)] and [history_.pop_front()] *)
Definition push_back (t : Z) (h : list Z) : list Z := h ++ [t].
Definition pop_front (h : list Z) : list Z := tail h.

(** [class LRUKReplacer].  The members [less_than_k] and [more_than_k] are
    never read or written by any member function and are left out. *)
Record LRUKReplacer := mkLRUKReplacer {
  node_store_ : gmap Z LRUKNode;
  current_timestamp_ : Z;
  curr_size_ : Z;
  replacer_size_ : Z;
  k_ : Z
}.

Definition set_node_store (m : gmap Z LRUKNode) (r : LRUKReplacer) : LRUKReplacer :=
  {| node_store_ := m; current_timestamp_ := current_timestamp_ r;
     curr_size_ := curr_size_ r; replacer_size_ := replacer_size_ r; k_ := k_ r |}.

Definition set_current_timestamp (t : Z) (r : LRUKReplacer) : LRUKReplacer :=
  {| node_store_ := node_store_ r; current_timestamp_ := t;
     curr_size_ := curr_size_ r; replacer_size_ := replacer_size_ r; k_ := k_ r |}.

Definition set_curr_size (n : Z) (r : LRUKReplacer) : LRUKReplacer :=
  {| node_store_ := node_store_ r; current_timestamp_ := current_timestamp_ r;
     curr_size_ := n; replacer_size_ := replacer_size_ r; k_ := k_ r |}.

(** ** Outcomes of member functions *)

Inductive exn := std_exception | std_out_of_range.

(** [Undefined]: the call has reached an operation whose behaviour C++
    leaves undefined (here: the use of an erased map element); nothing
    can be relied on from that point. *)
Inductive outcome (A : Type) :=
| Returns (a : A)
| Throws (e : exn)
| Undefined.
Arguments Returns {A} a.
Arguments Throws {A} e.
Arguments Undefined {A}.

(** A call runs on the object and leaves an object behind, also when it
    throws.  With [Undefined] the object is the one at the point where
    the undefined operation is reached. *)
Definition call (A : Type) : Type := LRUKReplacer -> outcome A * LRUKReplacer.

(** ** Member functions (lru_k_replacer.cpp) *)

(** [LRUKReplacer::LRUKReplacer(size_t num_frames, size_t k)] *)
Definition LRUKReplacer_init (num_frames k : Z) : LRUKReplacer :=
  {| node_store_ := ∅; current_timestamp_ := 0; curr_size_ := 0;
     replacer_size_ := num_frames; k_ := k |}.

(** [LRUKReplacer::RecordAccess].  In the branch of an already stored
    frame, [auto node = node_store_[frame_id]] is a copy of the stored
    node: the pushes and pops go to the copy, which dies at the end of the
    block. *)
Definition RecordAccess_copy (now k : Z) (access_type : AccessType)
    (node : LRUKNode) : LRUKNode :=
  if negb (is_Scan access_type) then
    let node := set_history (push_back now (history_ node)) node in
    if history_size node >? k
    then set_history (pop_front (history_ node)) node
    else node
  else node.

Definition RecordAccess (frame_id : frame_id_t) (access_type : AccessType)
    : call unit := fun this =>
  if replacer_size_ this >? static_cast_size_t frame_id then
    (Throws std_exception, this)
  else
    let this := set_current_timestamp (SizeT.incr (current_timestamp_ this)) this in
    match node_store_ this !! frame_id with
    | None =>
        let new_node := LRUKNode_default in
        let new_node :=
          if negb (is_Scan access_type)
          then set_history (push_back (current_timestamp_ this) (history_ new_node)) new_node
          else new_node in
        (Returns tt, set_node_store (<[frame_id := new_node]> (node_store_ this)) this)
    | Some stored =>
        let node := RecordAccess_copy (current_timestamp_ this) (k_ this) access_type stored in
        (Returns tt, this)
    end.

(** [LRUKReplacer::SetEvictable].  Lines 122-126: a frame that is not
    stored gets a default-constructed node ([operator[]] on line 126 would
    create it in any case), so from line 126 on [node] refers to a stored
    node. *)
Definition SetEvictable (frame_id : frame_id_t) (set_evictable : bool)
    : call unit := fun this =>
  if replacer_size_ this <? static_cast_size_t frame_id then
    (Throws std_out_of_range, this)
  else
    let this :=
      match node_store_ this !! frame_id with
      | None => set_node_store (<[frame_id := LRUKNode_default]> (node_store_ this)) this
      | Some _ => this
      end in
    let node := default LRUKNode_default (node_store_ this !! frame_id) in
    if negb (eqb (is_evictable_ node) set_evictable) then
      let this :=
        if set_evictable
        then set_curr_size (SizeT.incr (curr_size_ this)) this
        else set_curr_size (SizeT.decr (curr_size_ this)) this in
      (Returns tt,
       set_node_store
         (<[frame_id := set_is_evictable set_evictable node]> (node_store_ this)) this)
    else (Returns tt, this).

(** [LRUKReplacer::Remove].  [node] (line 146) is a reference to the map
    element; line 150 erases that element, and line 151 then calls
    [node.history_.clear()] through the dangling reference: a use after
    free.  The call is [Undefined] from there, with the members as line
    150 left them; the decrement of line 152 lies behind it. *)
Definition Remove (frame_id : frame_id_t) : call unit := fun this =>
  if replacer_size_ this <? static_cast_size_t frame_id then
    (Throws std_out_of_range, this)
  else
    match node_store_ this !! frame_id with
    | None => (Returns tt, this)
    | Some node =>
        if negb (is_evictable_ node) then (Throws std_exception, this)
        else
          let this := set_node_store (delete frame_id (node_store_ this)) this in
          (Undefined, this)
    end.

(** [LRUKReplacer::Size] *)
Definition Size : call Z := fun this => (Returns (curr_size_ this), this).

(** *** Evict

    The locals of [Evict] that live across loop iterations.  [evit_node]
    is a copy that is only written, and is left out. *)
Record Evict_locals := mkEvict_locals {
  is_inf : bool;
  success : bool;
  max_bkd : Z;
  max_lessk_bkd : Z
}.

(** Lines 49-68 for one evictable node [(fid, node)]: the new locals and
    the new value of [*frame_id]. *)
Definition Evict_select (now k : Z) (fid : frame_id_t) (node : LRUKNode)
    (l : Evict_locals) (frame_id : frame_id_t) : Evict_locals * frame_id_t :=
  let frame_id :=
    match history_ node with [] => fid | _ => frame_id end in
  if (history_size node =? k) && negb (is_inf l) then
    let cur_bkd := SizeT.sub now (GetBackKTimeStamp node) in
    if cur_bkd >? max_bkd l then
      ({| is_inf := is_inf l; success := success l;
          max_bkd := cur_bkd; max_lessk_bkd := max_lessk_bkd l |}, fid)
    else (l, frame_id)
  else if history_size node <? k then
    let l := {| is_inf := true; success := success l;
                max_bkd := max_bkd l; max_lessk_bkd := max_lessk_bkd l |} in
    let cur_less_bkd := SizeT.sub now (GetBackKTimeStamp node) in
    if cur_less_bkd >? max_lessk_bkd l then
      ({| is_inf := is_inf l; success := success l;
          max_bkd := max_bkd l; max_lessk_bkd := cur_less_bkd |}, fid)
    else (l, frame_id)
  else (l, frame_id).

(** The range-for over [node_store_] (lines 43-77).  [order] is the
    sequence of keys in which the hash table hands out its elements; the
    C++ standard leaves it to the implementation.  [frame_id] is the
    caller's variable behind the out-pointer.  The body ends in
    [return success] on line 74, which every evictable node reaches. *)
Fixpoint Evict_loop (order : list frame_id_t) (l : Evict_locals)
    (frame_id : frame_id_t) (this : LRUKReplacer)
    : bool * frame_id_t * LRUKReplacer :=
  match order with
  | [] => (false, frame_id, this)
  | fid :: rest =>
      match node_store_ this !! fid with
      | None => Evict_loop rest l frame_id this
      | Some node =>
          if negb (is_evictable_ node) then Evict_loop rest l frame_id this
          else
            let l := {| is_inf := is_inf l; success := true;
                        max_bkd := max_bkd l; max_lessk_bkd := max_lessk_bkd l |} in
            let '(l, frame_id) :=
              Evict_select (current_timestamp_ this) (k_ this) fid node l frame_id in
            let this :=
              if success l then
                let this := set_curr_size (SizeT.decr (curr_size_ this)) this in
                set_node_store (delete frame_id (node_store_ this)) this
              else this in
            (success l, frame_id, this)
      end
  end.

(** [LRUKReplacer::Evict(frame_id_t *frame_id) -> bool]: the result is the
    returned flag together with the value left in [*frame_id]. *)
Definition Evict (order : list frame_id_t) (frame_id : frame_id_t)
    : LRUKReplacer -> bool * frame_id_t * LRUKReplacer := fun this =>
  if curr_size_ this <=? 0 then (false, frame_id, this)
  else
    Evict_loop order
      {| is_inf := false; success := false; max_bkd := 0; max_lessk_bkd := 0 |}
      frame_id this.

(** [order] is a traversal of [this]: it lists every stored key once. *)
Definition traversal (this : LRUKReplacer) (order : list frame_id_t) : Prop :=
  order ≡ₚ elements (dom (node_store_ this)).

(** ** Sequences of calls *)

Definition bind {A B : Type} (c : call A) (k : A -> call B) : call B :=
  fun this =>
    match c this with
    | (Returns a, this') => k a this'
    | (Throws e, this') => (Throws e, this')
    | (Undefined, this') => (Undefined, this')
    end.

Declare Scope call_scope.
Delimit Scope call_scope with call.
Notation "c1 ;; c2" := (bind c1 (fun _ => c2))
  (at level 100, c2 at level 200, right associativity) : call_scope.

(** A caller that catches whatever a call throws and goes on. *)
Definition try_ (c : call unit) : call unit := fun this =>
  match c this with
  | (Undefined, this') => (Undefined, this')
  | (_, this') => (Returns tt, this')
  end.

(** The object after running [c] on [this]. *)
Definition after {A : Type} (c : call A) (this : LRUKReplacer) : LRUKReplacer :=
  snd (c this).

(** ** Observations used in the statements *)

(** The history stored for a frame, if the frame is stored at all. *)
Definition stored_history (this : LRUKReplacer) (f : frame_id_t) : option (list Z) :=
  history_ <$> node_store_ this !! f.

(** The evictable flag stored for a frame. *)
Definition stored_evictable (this : LRUKReplacer) (f : frame_id_t) : option bool :=
  is_evictable_ <$> node_store_ this !! f.

(** Number of stored nodes whose [is_evictable_] is set. *)
Definition count_evictable (m : gmap Z LRUKNode) : Z :=
  Z.of_nat (size (filter (fun kv => is_evictable_ kv.2 = true) m)).

Definition evictable_count (this : LRUKReplacer) : Z :=
  count_evictable (node_store_ this).

(** What one map entry contributes to [count_evictable]. *)
Definition weight (o : option LRUKNode) : Z :=
  match o with
  | Some node => if is_evictable_ node then 1 else 0
  | None => 0
  end.

(** ** Invariants of the data model *)

(** [curr_size_] is the number of evictable nodes. *)
Definition size_inv (this : LRUKReplacer) : Prop :=
  curr_size_ this = evictable_count this.

(** No stored history has more than one entry. *)
Definition histories_short (this : LRUKReplacer) : Prop :=
  forall f node,
    node_store_ this !! f = Some node -> (length (history_ node) <= 1)%nat.

(** ** Scenarios *)

(** [LRUKReplacer(3, 2)] *)
Definition replacer_3_2 : LRUKReplacer := LRUKReplacer_init 3 2.

(** Frame 3 is accessed once and then made evictable. *)
Definition touched_once : LRUKReplacer :=
  after (RecordAccess 3 Unknown ;; SetEvictable 3 true)%call replacer_3_2.

(** As [touched_once], with frame 0 stored as a non-evictable node. *)
Definition touched_once_pinned_0 : LRUKReplacer :=
  after (SetEvictable 0 false) touched_once.

(** Two evictable frames with full histories at tick 5, [k = 2]: the
    backward 2-distance of frame 1 is 5 - 1 = 4, that of frame 2 is
    5 - 3 = 2. *)
Definition two_full_histories : LRUKReplacer :=
  {| node_store_ := {[ 1 := mkLRUKNode [1; 2] (-1) 0 true;
                       2 := mkLRUKNode [3; 4] (-1) 0 true ]};
     current_timestamp_ := 5; curr_size_ := 2; replacer_size_ := 3; k_ := 2 |}.

(** Scenario A of the specification: accesses to frames 1, 2, 3, 1 and
    all three frames made evictable. *)
Definition scenario_A : call unit :=
  (RecordAccess 1 Unknown ;; RecordAccess 2 Unknown ;;
   RecordAccess 3 Unknown ;; RecordAccess 1 Unknown ;;
   SetEvictable 1 true ;; SetEvictable 2 true ;; SetEvictable 3 true)%call.

(** The same calls issued by a caller that swallows exceptions. *)
Definition scenario_A_lenient : call unit :=
  (try_ (RecordAccess 1 Unknown) ;; try_ (RecordAccess 2 Unknown) ;;
   try_ (RecordAccess 3 Unknown) ;; try_ (RecordAccess 1 Unknown) ;;
   try_ (SetEvictable 1 true) ;; try_ (SetEvictable 2 true) ;;
   try_ (SetEvictable 3 true))%call.

(** ** Reachable objects *)

(** One public call, whatever its outcome.  [Evict] runs with some
    traversal of the stored keys and some value in the caller's
    variable.  A [Remove] that ends [Undefined] contributes the object as
    it stands when the undefined operation is reached. *)
Inductive step : LRUKReplacer -> LRUKReplacer -> Prop :=
| step_RecordAccess this f a : step this (after (RecordAccess f a) this)
| step_SetEvictable this f b : step this (after (SetEvictable f b) this)
| step_Remove this f : step this (after (Remove f) this)
| step_Evict this order v :
    traversal this order -> step this (snd (Evict order v this)).

Inductive reachable (num_frames k : Z) : LRUKReplacer -> Prop :=
| reachable_init : reachable num_frames k (LRUKReplacer_init num_frames k)
| reachable_step this this' :
    reachable num_frames k this -> step this this' -> reachable num_frames k this'.

(** ** Calls as data *)

(** The public calls that change the object.  [OpEvict] carries the
    traversal the hash table happens to give and the value in the
    caller's variable. *)
Inductive op :=
| OpRecordAccess (f : frame_id_t) (a : AccessType)
| OpSetEvictable (f : frame_id_t) (b : bool)
| OpRemove (f : frame_id_t)
| OpEvict (order : list frame_id_t) (v : frame_id_t).

(** The object after one call, whatever its outcome. *)
Definition run_op (o : op) (this : LRUKReplacer) : LRUKReplacer :=
  match o with
  | OpRecordAccess f a => after (RecordAccess f a) this
  | OpSetEvictable f b => after (SetEvictable f b) this
  | OpRemove f => after (Remove f) this
  | OpEvict order v => snd (Evict order v this)
  end.

(** The object after a sequence of calls made by a caller that goes on
    after an exception. *)
Definition run (ops : list op) (this : LRUKReplacer) : LRUKReplacer :=
  fold_left (fun r o => run_op o r) ops this.

Definition is_OpEvict (o : op) : bool :=
  match o with OpEvict _ _ => true | _ => false end.

Definition is_Undefined {A : Type} (o : outcome A) : bool :=
  match o with Undefined => true | _ => false end.

(** Whether the call has defined behaviour on the object.  [Evict] has no
    undefined operation. *)
Definition op_defined (o : op) (this : LRUKReplacer) : bool :=
  match o with
  | OpRecordAccess f a => negb (is_Undefined (fst (RecordAccess f a this)))
  | OpSetEvictable f b => negb (is_Undefined (fst (SetEvictable f b this)))
  | OpRemove f => negb (is_Undefined (fst (Remove f this)))
  | OpEvict _ _ => true
  end.

(** Every call of the sequence has defined behaviour on the object it
    finds. *)
Fixpoint run_defined (ops : list op) (this : LRUKReplacer) : bool :=
  match ops with
  | [] => true
  | o :: ops => op_defined o this && run_defined ops (run_op o this)
  end.

(** A [RecordAccess] that gets past the guard of a replacer of
    [num_frames] frames. *)
Definition accepted_access (num_frames : Z) (o : op) : bool :=
  match o with
  | OpRecordAccess f _ => negb (num_frames >? static_cast_size_t f)
  | _ => false
  end.

(** ** Auxiliary predicates *)

(** The key is not stored, or its node is not evictable: the loop of
    [Evict] passes over it (line 45). *)
Definition passed_over (this : LRUKReplacer) (f : frame_id_t) : Prop :=
  forall node, node_store_ this !! f = Some node -> is_evictable_ node = false.

(** Whether lines 49-68, entered with the initial locals, assign
    [*frame_id] for the node at hand: an empty history is assigned on
    line 50; otherwise the history has at most [k] entries and the
    distance to its front is not 0. *)
Definition Evict_assigns (now k : Z) (node : LRUKNode) : bool :=
  match history_ node with
  | [] => true
  | t :: _ => (history_size node <=? k) && negb (SizeT.sub now t =? 0)
  end.

(** Nodes with a recorded access sit at frame ids from [num_frames] up,
    evictable nodes at frame ids up to [num_frames] (both read as
    [size_t]). *)
Definition frames_separated (this : LRUKReplacer) : Prop :=
  forall f node,
    node_store_ this !! f = Some node ->
    (history_ node <> [] -> replacer_size_ this <= static_cast_size_t f)
    /\ (is_evictable_ node = true -> static_cast_size_t f <= replacer_size_ this).

(** ** Arithmetic of [size_t] *)

Lemma wrap_in_range z : SizeT.in_range z -> SizeT.wrap z = z.
Proof. unfold SizeT.in_range, SizeT.wrap. intros H. apply Z.mod_small. lia. Qed.

Lemma decr_pos z : 0 < z < SizeT.modulus -> SizeT.decr z = z - 1.
Proof. intros H. unfold SizeT.decr. apply wrap_in_range. unfold SizeT.in_range. lia. Qed.

(** ** RecordAccess *)

(** The guard on line 92 throws exactly when the frame id, as a [size_t],
    is below [replacer_size_]. *)
Lemma RecordAccess_throws_iff this f a :
  fst (RecordAccess f a this) = Throws std_exception
  <-> static_cast_size_t f < replacer_size_ this.
Proof.
  unfold RecordAccess.
  destruct (Z.gtb_spec (replacer_size_ this) (static_cast_size_t f)) as [Hlt|Hge].
  - simpl. split; [lia | reflexivity].
  - split.
    + destruct (node_store_ _ !! f); simpl; discriminate.
    + lia.
Qed.

(** [RecordAccess] has no undefined operation. *)
Lemma RecordAccess_defined this f a : fst (RecordAccess f a this) <> Undefined.
Proof.
  unfold RecordAccess.
  destruct (replacer_size_ this >? static_cast_size_t f); [discriminate |].
  simpl. destruct (node_store_ this !! f); discriminate.
Qed.

(** A call that throws leaves the object as it was. *)
Lemma RecordAccess_throws_unchanged this f a e :
  fst (RecordAccess f a this) = Throws e -> snd (RecordAccess f a this) = this.
Proof.
  unfold RecordAccess.
  destruct (replacer_size_ this >? static_cast_size_t f); [reflexivity |].
  destruct (node_store_ _ !! f); simpl; discriminate.
Qed.

(** An accepted call advances the clock by one tick. *)
Lemma RecordAccess_clock this f a :
  fst (RecordAccess f a this) = Returns tt ->
  current_timestamp_ (after (RecordAccess f a) this)
  = SizeT.incr (current_timestamp_ this).
Proof.
  unfold after, RecordAccess.
  destruct (replacer_size_ this >? static_cast_size_t f); [discriminate |].
  simpl. destruct (node_store_ this !! f); reflexivity.
Qed.

(** On a stored frame the whole map stays as it was: the update of lines
    105-111 is made on a copy. *)
Lemma RecordAccess_stored_keeps_store this f a node :
  node_store_ this !! f = Some node ->
  node_store_ (after (RecordAccess f a) this) = node_store_ this.
Proof.
  intros Hf. unfold after, RecordAccess.
  destruct (replacer_size_ this >? static_cast_size_t f); [reflexivity |].
  simpl. rewrite Hf. reflexivity.
Qed.

(** What the discarded copy holds: the history the stored node would
    need. *)
Lemma RecordAccess_copy_appends now k a node :
  is_Scan a = false ->
  history_ (RecordAccess_copy now k a node)
  = if Z.of_nat (length (history_ node ++ [now])) >? k
    then tail (history_ node ++ [now])
    else history_ node ++ [now].
Proof.
  intros Ha. unfold RecordAccess_copy, history_size, push_back, pop_front.
  rewrite Ha. simpl.
  destruct (Z.of_nat (length (history_ node ++ [now])) >? k); reflexivity.
Qed.

(** On a frame that is not stored, an accepted call stores a default node
    whose history is empty for a scan and [[now]] otherwise. *)
Lemma RecordAccess_fresh this f a :
  fst (RecordAccess f a this) = Returns tt ->
  node_store_ this !! f = None ->
  node_store_ (after (RecordAccess f a) this)
  = <[f := set_history
             (if is_Scan a then [] else [SizeT.incr (current_timestamp_ this)])
             LRUKNode_default]> (node_store_ this).
Proof.
  unfold after, RecordAccess.
  destruct (replacer_size_ this >? static_cast_size_t f); [discriminate |].
  simpl. intros _ Hf. rewrite Hf. simpl.
  destruct (is_Scan a); reflexivity.
Qed.

(** C2.  [RecordAccess] on [LRUKReplacer(3, 2)]: frame 1, which lies in
    [0, num_frames), is rejected with an exception and nothing changes,
    while frames 3 and 4, which do not, are accepted. *)
Theorem RecordAccess_guard_inverted :
  RecordAccess 1 Unknown replacer_3_2 = (Throws std_exception, replacer_3_2)
  /\ fst (RecordAccess 3 Unknown replacer_3_2) = Returns tt
  /\ fst (RecordAccess 4 Unknown replacer_3_2) = Returns tt
  /\ current_timestamp_ (after (RecordAccess 1 Unknown) replacer_3_2) = 0.
Proof. repeat split. Qed.

(** C3.  Two accesses to frame 3 on [LRUKReplacer(3, 2)]: the second call
    returns normally and moves the clock to 2, but the stored history of
    the frame is still [[1]], not [[1; 2]]. *)
Theorem RecordAccess_second_access_not_stored :
  let once := after (RecordAccess 3 Unknown) replacer_3_2 in
  let twice := after (RecordAccess 3 Unknown) once in
  stored_history once 3 = Some [1]
  /\ fst (RecordAccess 3 Unknown once) = Returns tt
  /\ current_timestamp_ twice = 2
  /\ stored_history twice 3 = Some [1].
Proof. vm_compute. repeat split. Qed.

(** C6.  Scenario A on [LRUKReplacer(3, 2)] stops at its first call:
    [RecordAccess(1)] throws.  If the caller swallows the exceptions, only
    the access to frame 3 is recorded, and [Evict] visiting the keys in
    the order 1, 2, 3 returns frame 1. *)
Theorem scenario_A_fails :
  scenario_A replacer_3_2 = (Throws std_exception, replacer_3_2)
  /\ (let this := after scenario_A_lenient replacer_3_2 in
      traversal this [1; 2; 3]
      /\ stored_history this 1 = Some []
      /\ stored_history this 2 = Some []
      /\ stored_history this 3 = Some [1]
      /\ forall v, fst (Evict [1; 2; 3] v this) = (true, 1)).
Proof.
  split; [reflexivity |].
  cbv zeta. split.
  - unfold traversal. vm_compute.
    apply (Permutation_rev [1; 2; 3]).
  - repeat split.
Qed.

(** ** Scan accesses *)

(** On a frame that already has a node the access type makes no
    difference: lines 105-111 work on a copy for every access type. *)
Lemma RecordAccess_Scan_same_on_stored_frames this f a node :
  node_store_ this !! f = Some node ->
  RecordAccess f Scan this = RecordAccess f a this.
Proof.
  intros Hf. unfold RecordAccess.
  destruct (replacer_size_ this >? static_cast_size_t f); [reflexivity |].
  simpl. rewrite Hf. reflexivity.
Qed.



(** X11.  A [Scan] access that [RecordAccess] accepts advances the clock
    and enters nothing into any history: a frame without a node gets a
    node with the empty history, every stored history stays as it was.
    A non-scan access to a frame without a node leaves the history
    [[now]]. *)
Theorem RecordAccess_Scan_not_in_history this f :
  fst (RecordAccess f Scan this) = Returns tt ->
  current_timestamp_ (after (RecordAccess f Scan) this)
  = SizeT.incr (current_timestamp_ this)
  /\ (forall g,
        stored_history (after (RecordAccess f Scan) this) g
        = if decide (g = f)
          then Some (default [] (stored_history this f))
          else stored_history this g)
  /\ (forall a,
        is_Scan a = false ->
        node_store_ this !! f = None ->
        stored_history (after (RecordAccess f a) this) f
        = Some [SizeT.incr (current_timestamp_ this)]).
Proof.
  intros Hok. split; [by apply RecordAccess_clock |]. split.
  - intros g. unfold stored_history.
    destruct (node_store_ this !! f) as [node|] eqn:Hf.
    + rewrite (RecordAccess_stored_keeps_store this f Scan node Hf).
      destruct (decide (g = f)) as [->|]; [by rewrite Hf | done].
    + rewrite (RecordAccess_fresh this f Scan Hok Hf).
      destruct (decide (g = f)) as [->|Hne].
      * by rewrite lookup_insert_eq.
      * by rewrite lookup_insert_ne.
  - intros a Ha Hf. unfold stored_history.
    assert (Hoka : fst (RecordAccess f a this) = Returns tt).
    { revert Hok. unfold RecordAccess.
      destruct (replacer_size_ this >? static_cast_size_t f); [discriminate |].
      simpl. rewrite Hf. reflexivity. }
    rewrite (RecordAccess_fresh this f a Hoka Hf), Ha.
    by rewrite lookup_insert_eq.
Qed.

Lemma RecordAccess_Scan_not_in_history_witness :
  current_timestamp_ (after (RecordAccess 3 Scan) replacer_3_2)
  = SizeT.incr (current_timestamp_ replacer_3_2)
  /\ stored_history (after (RecordAccess 3 Scan) replacer_3_2) 3 = Some []
  /\ stored_history (after (RecordAccess 3 Index) replacer_3_2) 3 = Some [1].
Proof.
  destruct (RecordAccess_Scan_not_in_history replacer_3_2 3 eq_refl)
    as (Hclock & Hscan & Hother).
  split; [exact Hclock |]. split.
  - exact (Hscan 3).
  - exact (Hother Index eq_refl eq_refl).
Defined.

(** ** SetEvictable *)

(** The guard on line 119 throws exactly when the frame id, as a
    [size_t], exceeds [replacer_size_]; the object is then untouched. *)
Lemma SetEvictable_throws this f b :
  replacer_size_ this < static_cast_size_t f ->
  SetEvictable f b this = (Throws std_out_of_range, this).
Proof.
  intros H. unfold SetEvictable.
  destruct (Z.ltb_spec (replacer_size_ this) (static_cast_size_t f)); [reflexivity | lia].
Qed.

(** The node that lines 122-126 leave under [frame_id]. *)
Lemma SetEvictable_store this f b :
  static_cast_size_t f <= replacer_size_ this ->
  node_store_ (after (SetEvictable f b) this)
  = <[f := set_is_evictable b (default LRUKNode_default (node_store_ this !! f))]>
      (node_store_ this).
Proof.
  intros H. unfold after, SetEvictable.
  destruct (Z.ltb_spec (replacer_size_ this) (static_cast_size_t f)); [lia |].
  destruct (node_store_ this !! f) as [node|] eqn:Hf; simpl.
  - rewrite Hf. simpl.
    destruct (is_evictable_ node) eqn:He, b; simpl; try reflexivity.
    + symmetry. apply insert_id. rewrite Hf. f_equal.
      destruct node; simpl in *; by subst.
    + symmetry. apply insert_id. rewrite Hf. f_equal.
      destruct node; simpl in *; by subst.
  - rewrite lookup_insert_eq. simpl.
    destruct b; simpl; [by rewrite insert_insert_eq | reflexivity].
Qed.

(** C10.  [SetEvictable] leaves every stored history as it is, whatever
    the frame id and the flag; a frame that had no node has one afterwards
    only if it is the frame of an accepted call, and then with the empty
    history. *)
Theorem SetEvictable_keeps_histories this f b g :
  stored_history (after (SetEvictable f b) this) g
  = match stored_history this g with
    | Some h => Some h
    | None =>
        if decide (g = f)
        then (if replacer_size_ this <? static_cast_size_t f then None else Some [])
        else None
    end.
Proof.
  unfold stored_history.
  destruct (Z.ltb_spec (replacer_size_ this) (static_cast_size_t f)) as [Hlt|Hge].
  - unfold after. rewrite (SetEvictable_throws this f b Hlt). simpl.
    destruct (node_store_ this !! g); simpl; [reflexivity |].
    by destruct (decide (g = f)).
  - rewrite (SetEvictable_store this f b Hge).
    destruct (decide (g = f)) as [->|Hne].
    + rewrite lookup_insert_eq.
      destruct (node_store_ this !! f); reflexivity.
    + rewrite lookup_insert_ne by done.
      destruct (node_store_ this !! g); reflexivity.
Qed.

(** C9.  On [LRUKReplacer(3, 2)] frame 1 is in range and has no node.
    [SetEvictable(1, false)] returns normally and is not a no-op: it
    stores a default node for frame 1, so the object differs from the one
    before the call; [Size()] and the clock are as before. *)
Theorem SetEvictable_false_untracked_stores_node :
  node_store_ replacer_3_2 !! 1 = None
  /\ fst (SetEvictable 1 false replacer_3_2) = Returns tt
  /\ node_store_ (after (SetEvictable 1 false) replacer_3_2) !! 1
     = Some LRUKNode_default
  /\ SetEvictable 1 false replacer_3_2 <> (Returns tt, replacer_3_2)
  /\ curr_size_ (after (SetEvictable 1 false) replacer_3_2) = curr_size_ replacer_3_2
  /\ current_timestamp_ (after (SetEvictable 1 false) replacer_3_2)
     = current_timestamp_ replacer_3_2.
Proof.
  split; [reflexivity |]. split; [reflexivity |].
  split; [vm_compute; reflexivity |].
  split; [| split; reflexivity].
  intros Heq.
  apply (f_equal (fun r => stored_history (snd r) 1)) in Heq.
  vm_compute in Heq. discriminate.
Qed.

(** ** Remove *)

(** C8.  In [touched_once] frame 3 passes the guard and is stored with the
    evictable flag on.  [Remove(3)] erases the node (line 150) and then
    uses the erased node (line 151): the call ends in undefined behaviour
    instead of returning, and has not reached the decrement of line
    152. *)
Theorem Remove_evictable_frame_undefined :
  static_cast_size_t 3 <= replacer_size_ touched_once
  /\ stored_evictable touched_once 3 = Some true
  /\ fst (Remove 3 touched_once) = Undefined
  /\ node_store_ (snd (Remove 3 touched_once)) !! 3 = None
  /\ curr_size_ (snd (Remove 3 touched_once)) = curr_size_ touched_once.
Proof.
  split; [vm_compute; discriminate |].
  repeat split; vm_compute; reflexivity.
Qed.

(** ** Evict *)

(** Keys that are not stored or whose node is not evictable are passed
    over without any effect. *)
Lemma Evict_loop_skip this skipped rest l v :
  Forall (fun f => forall node,
            node_store_ this !! f = Some node -> is_evictable_ node = false) skipped ->
  Evict_loop (skipped ++ rest) l v this = Evict_loop rest l v this.
Proof.
  induction 1 as [|f skipped Hf _ IH]; [reflexivity |].
  simpl. destruct (node_store_ this !! f) as [node|] eqn:Hn; [| exact IH].
  rewrite (Hf node eq_refl). simpl. exact IH.
Qed.

(** The first evictable node ends the loop: the keys after it are never
    looked at. *)
Lemma Evict_loop_first_evictable this fid node rest l v :
  node_store_ this !! fid = Some node ->
  is_evictable_ node = true ->
  Evict_loop (fid :: rest) l v this = Evict_loop [fid] l v this.
Proof. intros Hn He. simpl. rewrite Hn, He. reflexivity. Qed.

Lemma Evict_decided_by_first_evictable this skipped fid node rest v :
  Forall (fun f => forall node,
            node_store_ this !! f = Some node -> is_evictable_ node = false) skipped ->
  node_store_ this !! fid = Some node ->
  is_evictable_ node = true ->
  Evict (skipped ++ fid :: rest) v this = Evict [fid] v this.
Proof.
  intros Hs Hn He. unfold Evict.
  destruct (curr_size_ this <=? 0); [reflexivity |].
  rewrite (Evict_loop_skip _ _ _ _ _ Hs).
  by apply Evict_loop_first_evictable with node.
Qed.

(** When [Evict] returns [true], the evictable count has gone down by one
    (modulo 2^64 is not needed: the count was positive) and the key left
    in [*frame_id] is not stored any more. *)
Lemma Evict_true_effect this order v v' this' :
  SizeT.in_range (curr_size_ this) ->
  Evict order v this = (true, v', this') ->
  curr_size_ this' = curr_size_ this - 1
  /\ node_store_ this' = delete v' (node_store_ this)
  /\ current_timestamp_ this' = current_timestamp_ this.
Proof.
  intros Hr. unfold Evict.
  destruct (Z.leb_spec (curr_size_ this) 0) as [|Hpos]; [discriminate |].
  generalize (mkEvict_locals false false 0 0). intros l.
  induction order as [|fid rest IH]; simpl; [discriminate |].
  destruct (node_store_ this !! fid) as [node|]; [| exact IH].
  destruct (is_evictable_ node); simpl; [| exact IH].
  destruct (Evict_select _ _ _ _ _ _) as [l' w].
  destruct (success l'); [| discriminate].
  intros [= <- <-]. simpl. split; [| done].
  apply decr_pos. unfold SizeT.in_range in Hr. lia.
Qed.

(** Lines 49-68 never write [success]. *)
Lemma Evict_select_success now k fid node l v :
  success (fst (Evict_select now k fid node l v)) = success l.
Proof.
  unfold Evict_select.
  destruct ((history_size node =? k) && negb (is_inf l)).
  - destruct (_ >? _); reflexivity.
  - destruct (history_size node <? k); [| reflexivity].
    destruct (_ >? _); reflexivity.
Qed.

(** A node touched once, at the current tick, is not selected: its
    distance is 0, and line 63 asks for a distance above 0. *)
Lemma Evict_select_fresh_access now k fid t node l v :
  history_ node = [t] ->
  SizeT.sub now t = 0 ->
  1 <= k ->
  is_inf l = false -> max_bkd l = 0 -> max_lessk_bkd l = 0 ->
  snd (Evict_select now k fid node l v) = v.
Proof.
  intros Hh Hsub Hk Hi Hm Hm'.
  unfold Evict_select, history_size, GetBackKTimeStamp.
  rewrite Hh, Hi, Hm. change (Z.of_nat (length [t])) with 1.
  rewrite Hsub. change (0 >? 0) with false.
  destruct (1 =? k); cbn [negb andb snd]; [reflexivity |].
  destruct (1 <? k); cbn [snd max_lessk_bkd]; [| reflexivity].
  rewrite Hm'. reflexivity.
Qed.

(** Whenever the first evictable node of the traversal holds a single
    access made at the current tick, [Evict] reports success and hands
    back the caller's own value. *)
Lemma Evict_fresh_access_unassigned this skipped fid node rest v :
  Forall (fun f => forall node,
            node_store_ this !! f = Some node -> is_evictable_ node = false) skipped ->
  node_store_ this !! fid = Some node ->
  is_evictable_ node = true ->
  history_ node = [current_timestamp_ this] ->
  1 <= k_ this ->
  0 < curr_size_ this ->
  fst (Evict (skipped ++ fid :: rest) v this) = (true, v).
Proof.
  intros Hs Hn He Hh Hk Hpos.
  rewrite (Evict_decided_by_first_evictable this skipped fid node rest v Hs Hn He).
  unfold Evict. destruct (Z.leb_spec (curr_size_ this) 0); [lia |].
  simpl. rewrite Hn, He. simpl.
  match goal with
  | |- context [Evict_select ?n ?k ?i ?d ?c ?x] =>
      pose proof (Evict_select_success n k i d c x) as Hsucc;
      pose proof (Evict_select_fresh_access n k i n d c x Hh) as Hsel;
      destruct (Evict_select n k i d c x) as [l' w]
  end.
  simpl in Hsucc, Hsel. rewrite Hsucc. simpl. f_equal.
  apply Hsel; try reflexivity; [| exact Hk].
  unfold SizeT.sub, SizeT.wrap. by rewrite Z.sub_diag.
Qed.

Lemma touched_once_reachable : reachable 3 2 touched_once.
Proof.
  apply reachable_step with (after (RecordAccess 3 Unknown) replacer_3_2).
  - apply reachable_step with replacer_3_2; [apply reachable_init |].
    apply step_RecordAccess.
  - apply (step_SetEvictable _ 3 true).
Qed.

Lemma touched_once_pinned_0_reachable : reachable 3 2 touched_once_pinned_0.
Proof.
  apply reachable_step with touched_once; [apply touched_once_reachable |].
  apply (step_SetEvictable _ 0 false).
Qed.

Lemma touched_once_store :
  node_store_ touched_once = {[ 3 := mkLRUKNode [1] (-1) 0 true ]}.
Proof. vm_compute. reflexivity. Qed.

Lemma touched_once_traversal order :
  traversal touched_once order -> order = [3].
Proof.
  unfold traversal. rewrite touched_once_store, dom_singleton_L, elements_singleton.
  apply Permutation_singleton_r.
Qed.

Lemma touched_once_pinned_0_traversal order :
  traversal touched_once_pinned_0 order -> order = [3; 0] \/ order = [0; 3].
Proof.
  unfold traversal. intros H. vm_compute in H. symmetry in H.
  by apply Permutation_length_2_inv in H.
Qed.

(** C1.  In [touched_once], frame 3 is the only stored frame, it is
    evictable and has one access, fewer than [k = 2].  Whatever the
    traversal, and whatever value [v] other than 3 the caller's variable
    holds, [Evict] returns [true] and leaves [v] in [*frame_id]: the
    frame handed back is not frame 3, and not a stored frame at all. *)
Theorem Evict_misses_the_only_candidate order v :
  traversal touched_once order ->
  v <> 3 ->
  node_store_ touched_once = {[ 3 := mkLRUKNode [1] (-1) 0 true ]}
  /\ k_ touched_once = 2
  /\ fst (Evict order v touched_once) = (true, v)
  /\ node_store_ touched_once !! v = None.
Proof.
  intros ->%touched_once_traversal Hv.
  split; [exact touched_once_store |]. split; [reflexivity |].
  split; [reflexivity |].
  rewrite touched_once_store. by apply lookup_singleton_ne.
Qed.

Lemma Evict_misses_the_only_candidate_witness :
  fst (Evict [3] 7 touched_once) = (true, 7).
Proof.
  assert (Ht : traversal touched_once [3])
    by (unfold traversal; vm_compute; reflexivity).
  assert (Hv : 7 <> 3) by lia.
  exact (proj1 (proj2 (proj2 (Evict_misses_the_only_candidate [3] 7 Ht Hv)))).
Defined.

(** C4.  In [touched_once_pinned_0], frame 0 is stored with its evictable
    flag off.  With 0 in the caller's variable, [Evict] returns [true]
    with frame 0 in [*frame_id] under every traversal, and it is the node
    of frame 0 that is erased; frame 3 stays stored and evictable. *)
Theorem Evict_returns_non_evictable_frame order :
  traversal touched_once_pinned_0 order ->
  stored_evictable touched_once_pinned_0 0 = Some false
  /\ fst (Evict order 0 touched_once_pinned_0) = (true, 0)
  /\ stored_evictable (snd (Evict order 0 touched_once_pinned_0)) 0 = None
  /\ stored_evictable (snd (Evict order 0 touched_once_pinned_0)) 3 = Some true.
Proof.
  intros [-> | ->]%touched_once_pinned_0_traversal; vm_compute; repeat split.
Qed.

Lemma Evict_returns_non_evictable_frame_witness :
  stored_evictable touched_once_pinned_0 0 = Some false
  /\ fst (Evict [0; 3] 0 touched_once_pinned_0) = (true, 0).
Proof.
  assert (Ht : traversal touched_once_pinned_0 [0; 3]).
  { unfold traversal. vm_compute. apply (Permutation_rev [0; 3]). }
  destruct (Evict_returns_non_evictable_frame [0; 3] Ht) as (H0 & H1 & _).
  split; [exact H0 | exact H1].
Defined.

(** C5.  In [touched_once] the evictable count is 1 and one stored node is
    evictable.  [Evict], called with a value other than 3 in the caller's
    variable, returns [true] and takes the count to 0, while the evictable
    node of frame 3 is still stored: [Size()] is 0 and one stored node is
    evictable. *)
Theorem Evict_breaks_size_invariant order v :
  traversal touched_once order ->
  v <> 3 ->
  curr_size_ touched_once = evictable_count touched_once
  /\ fst (Evict order v touched_once) = (true, v)
  /\ fst (Size (snd (Evict order v touched_once))) = Returns 0
  /\ evictable_count (snd (Evict order v touched_once)) = 1
  /\ stored_evictable (snd (Evict order v touched_once)) 3 = Some true.
Proof.
  intros ->%touched_once_traversal Hv.
  split; [vm_compute; reflexivity |].
  split; [reflexivity |]. split; [reflexivity |].
  assert (Hs : node_store_ (snd (Evict [3] v touched_once))
               = node_store_ touched_once).
  { change (node_store_ (snd (Evict [3] v touched_once)))
      with (delete v (node_store_ touched_once)).
    apply delete_id. rewrite touched_once_store. by apply lookup_singleton_ne. }
  unfold evictable_count, stored_evictable. rewrite Hs.
  split; vm_compute; reflexivity.
Qed.

Lemma Evict_breaks_size_invariant_witness :
  fst (Size (snd (Evict [3] 7 touched_once))) = Returns 0
  /\ evictable_count (snd (Evict [3] 7 touched_once)) = 1.
Proof.
  assert (Ht : traversal touched_once [3])
    by (unfold traversal; vm_compute; reflexivity).
  assert (Hv : 7 <> 3) by lia.
  destruct (Evict_breaks_size_invariant [3] 7 Ht Hv) as (_ & _ & Hs & Hc & _).
  split; [exact Hs | exact Hc].
Defined.

(** The loop hands back whichever evictable frame the traversal visits
    first: with two full histories, frame 2 (distance 2) is returned when
    it is visited before frame 1 (distance 4). *)
Lemma Evict_returns_first_visited v :
  traversal two_full_histories [2; 1]
  /\ SizeT.sub 5 (GetBackKTimeStamp (mkLRUKNode [1; 2] (-1) 0 true)) = 4
  /\ SizeT.sub 5 (GetBackKTimeStamp (mkLRUKNode [3; 4] (-1) 0 true)) = 2
  /\ fst (Evict [2; 1] v two_full_histories) = (true, 2)
  /\ fst (Evict [1; 2] v two_full_histories) = (true, 1).
Proof.
  split; [| repeat split].
  unfold traversal. vm_compute. reflexivity.
Qed.

(** ** Counting evictable nodes *)

Lemma count_evictable_nonneg m : 0 <= count_evictable m.
Proof. unfold count_evictable. lia. Qed.

Lemma count_evictable_delete m f :
  count_evictable (delete f m) = count_evictable m - weight (m !! f).
Proof.
  unfold count_evictable, weight.
  rewrite map_filter_delete, map_size_delete.
  destruct (filter _ m !! f) as [node|] eqn:Hf.
  - apply map_lookup_filter_Some in Hf as [Hm He]. simpl in He.
    rewrite Hm, He.
    assert (size (filter (fun kv => is_evictable_ kv.2 = true) m) <> 0%nat).
    { intros H0%map_size_empty_iff.
      assert (Hl : filter (fun kv => is_evictable_ kv.2 = true) m !! f = Some node)
        by (apply map_lookup_filter_Some; done).
      rewrite H0 in Hl. by rewrite lookup_empty in Hl. }
    lia.
  - apply map_lookup_filter_None in Hf as [Hm | Hne].
    + rewrite Hm. simpl. lia.
    + destruct (m !! f) as [node|] eqn:Hm; [| simpl; lia].
      specialize (Hne node eq_refl). simpl in Hne.
      destruct (is_evictable_ node); [done | simpl; lia].
Qed.

Lemma count_evictable_insert_fresh m f node :
  m !! f = None ->
  count_evictable (<[f := node]> m) = count_evictable m + weight (Some node).
Proof.
  intros Hm. unfold count_evictable, weight.
  rewrite map_filter_insert. simpl.
  destruct (decide (is_evictable_ node = true)) as [He|Hne].
  - rewrite He, map_size_insert.
    assert (Hf : filter (fun kv => is_evictable_ kv.2 = true) m !! f = None)
      by (apply map_lookup_filter_None; by left).
    rewrite Hf. lia.
  - rewrite delete_id by done.
    destruct (is_evictable_ node); [done | lia].
Qed.

Lemma count_evictable_insert m f node :
  count_evictable (<[f := node]> m)
  = count_evictable m - weight (m !! f) + weight (Some node).
Proof.
  rewrite <- insert_delete_eq.
  rewrite count_evictable_insert_fresh by apply lookup_delete_eq.
  by rewrite count_evictable_delete.
Qed.

(** ** The evictable count under the four operations *)

Lemma incr_below_max z : 0 <= z < SizeT.max -> SizeT.incr z = z + 1.
Proof.
  intros H. unfold SizeT.incr. apply wrap_in_range.
  unfold SizeT.in_range, SizeT.max in *. lia.
Qed.

Lemma RecordAccess_size_inv this f a :
  size_inv this -> size_inv (after (RecordAccess f a) this).
Proof.
  unfold size_inv, evictable_count, after, RecordAccess. intros Hinv.
  destruct (replacer_size_ this >? static_cast_size_t f); [exact Hinv |].
  simpl. destruct (node_store_ this !! f) as [node|] eqn:Hf; simpl; [exact Hinv |].
  rewrite count_evictable_insert_fresh by done.
  rewrite Hinv. destruct (is_Scan a); simpl; lia.
Qed.

(** The evictable count after an accepted [SetEvictable]. *)
Lemma SetEvictable_curr_size this f b :
  static_cast_size_t f <= replacer_size_ this ->
  curr_size_ (after (SetEvictable f b) this)
  = let e := is_evictable_ (default LRUKNode_default (node_store_ this !! f)) in
    if eqb e b then curr_size_ this
    else if b then SizeT.incr (curr_size_ this) else SizeT.decr (curr_size_ this).
Proof.
  intros H. unfold after, SetEvictable.
  destruct (Z.ltb_spec (replacer_size_ this) (static_cast_size_t f)); [lia |].
  destruct (node_store_ this !! f) as [node|] eqn:Hf; simpl.
  - rewrite Hf. simpl. destruct (is_evictable_ node), b; reflexivity.
  - rewrite lookup_insert_eq. simpl. destruct b; reflexivity.
Qed.

Lemma SetEvictable_size_inv this f b :
  size_inv this ->
  evictable_count this < SizeT.max ->
  size_inv (after (SetEvictable f b) this).
Proof.
  unfold size_inv, evictable_count. intros Hinv Hmax.
  destruct (Z.ltb_spec (replacer_size_ this) (static_cast_size_t f)) as [Hlt|Hge].
  - unfold after. by rewrite (SetEvictable_throws this f b Hlt).
  - rewrite (SetEvictable_store this f b Hge), (SetEvictable_curr_size this f b Hge).
    rewrite count_evictable_insert. cbv zeta.
    pose proof (count_evictable_nonneg (node_store_ this)) as Hnn.
    pose proof (count_evictable_nonneg (delete f (node_store_ this))) as Hnd.
    rewrite count_evictable_delete in Hnd.
    unfold frame_id_t in *.
    destruct (node_store_ this !! f) as [node|]; simpl in *.
    + destruct (is_evictable_ node), b; simpl in *; try lia.
      * rewrite decr_pos; unfold SizeT.max in *; lia.
      * rewrite incr_below_max; lia.
    + destruct b; simpl; [| lia].
      rewrite incr_below_max; lia.
Qed.

(** Where [Remove] has defined behaviour it changes nothing. *)
Lemma Remove_defined_unchanged this f :
  is_Undefined (fst (Remove f this)) = false ->
  after (Remove f) this = this.
Proof.
  unfold after, Remove.
  destruct (replacer_size_ this <? static_cast_size_t f); [reflexivity |].
  destruct (node_store_ this !! f) as [node|]; [| reflexivity].
  destruct (is_evictable_ node); simpl; [discriminate | reflexivity].
Qed.

Lemma Remove_size_inv this f :
  size_inv this ->
  is_Undefined (fst (Remove f this)) = false ->
  size_inv (after (Remove f) this).
Proof. intros Hinv Hdef. by rewrite Remove_defined_unchanged. Qed.

(** [Evict] that returns [false] changes nothing. *)
Lemma Evict_false_unchanged this order v v' this' :
  Evict order v this = (false, v', this') -> v' = v /\ this' = this.
Proof.
  unfold Evict.
  destruct (curr_size_ this <=? 0); [intros [= <- <-]; by split |].
  generalize (mkEvict_locals false false 0 0). intros l.
  induction order as [|fid rest IH]; simpl; [intros [= <- <-]; by split |].
  destruct (node_store_ this !! fid) as [node|]; [| exact IH].
  destruct (is_evictable_ node); simpl; [| exact IH].
  match goal with
  | |- context [Evict_select ?n ?k ?i ?d ?c ?x] =>
      pose proof (Evict_select_success n k i d c x) as Hsucc;
      destruct (Evict_select n k i d c x) as [l' w]
  end.
  simpl in Hsucc. rewrite Hsucc. discriminate.
Qed.

(** After a successful [Evict] on an object that satisfies the size
    invariant, the invariant holds again exactly when the frame left in
    [*frame_id] was stored and evictable. *)
Lemma Evict_size_inv_iff this order v v' this' :
  size_inv this ->
  SizeT.in_range (curr_size_ this) ->
  Evict order v this = (true, v', this') ->
  size_inv this' <-> stored_evictable this v' = Some true.
Proof.
  intros Hinv Hr He.
  destruct (Evict_true_effect this order v v' this' Hr He) as (Hs & Hm & _).
  unfold size_inv, evictable_count, stored_evictable in *.
  rewrite Hs, Hm, count_evictable_delete, Hinv.
  unfold frame_id_t in *.
  destruct (node_store_ this !! v') as [node|]; simpl.
  - destruct (is_evictable_ node); split; intros H; try done; lia.
  - split; intros H; [lia | done].
Qed.

(** ** Stored histories in reachable objects *)

Lemma Evict_store_subseteq this order v :
  node_store_ (snd (Evict order v this)) ⊆ node_store_ this.
Proof.
  destruct (Evict order v this) as [[[] v'] this'] eqn:He; simpl.
  - unfold Evict in He.
    destruct (curr_size_ this <=? 0); [discriminate |].
    revert He. generalize (mkEvict_locals false false 0 0). intros l.
    induction order as [|fid rest IH]; simpl; [discriminate |].
    destruct (node_store_ this !! fid) as [node|]; [| exact IH].
    destruct (is_evictable_ node); simpl; [| exact IH].
    destruct (Evict_select _ _ _ _ _ _) as [l' w].
    destruct (success l'); [| discriminate].
    intros [= <- <-]. simpl. apply delete_subseteq.
  - by apply Evict_false_unchanged in He as [_ ->].
Qed.

Lemma step_histories_short this this' :
  step this this' -> histories_short this -> histories_short this'.
Proof.
  intros Hstep Hinv g node. destruct Hstep as [this f a|this f b|this f|this order v Ht].
  - destruct (node_store_ this !! f) as [old|] eqn:Hf.
    + rewrite (RecordAccess_stored_keeps_store this f a old Hf). apply Hinv.
    + destruct (fst (RecordAccess f a this)) as [[]|e|] eqn:Hout;
        [| | by destruct (RecordAccess_defined this f a)].
      * rewrite (RecordAccess_fresh this f a Hout Hf).
        destruct (decide (g = f)) as [->|Hne].
        -- rewrite lookup_insert_eq. intros [= <-]. destruct (is_Scan a); simpl; lia.
        -- rewrite lookup_insert_ne by done. apply Hinv.
      * unfold after. rewrite (RecordAccess_throws_unchanged this f a e Hout).
        apply Hinv.
  - destruct (Z.ltb_spec (replacer_size_ this) (static_cast_size_t f)) as [Hlt|Hge].
    + unfold after. rewrite (SetEvictable_throws this f b Hlt). apply Hinv.
    + rewrite (SetEvictable_store this f b Hge).
      destruct (decide (g = f)) as [->|Hne].
      * rewrite lookup_insert_eq. intros [= <-]. simpl.
        destruct (node_store_ this !! f) as [old|] eqn:Hf; simpl; [| lia].
        by apply (Hinv f).
      * rewrite lookup_insert_ne by done. apply Hinv.
  - intros Hg. apply (Hinv g).
    eapply lookup_weaken; [exact Hg |].
    unfold after, Remove.
    destruct (replacer_size_ this <? static_cast_size_t f); [done |].
    destruct (node_store_ this !! f) as [old|]; [| done].
    destruct (is_evictable_ old); simpl; [apply delete_subseteq | done].
  - intros Hg. apply (Hinv g).
    eapply lookup_weaken; [exact Hg | apply Evict_store_subseteq].
Qed.

(** Whatever calls are made on a fresh replacer, no stored history ever
    gets a second entry. *)
Lemma reachable_histories_short num_frames k this :
  reachable num_frames k this -> histories_short this.
Proof.
  induction 1 as [|this this' _ IH Hstep].
  - intros f node. unfold LRUKReplacer_init. simpl. by rewrite lookup_empty.
  - by apply (step_histories_short this this').
Qed.

(** * Further properties of the member functions *)

(** ** Guards *)

(** X1.  [RecordAccess] throws [std::exception] when the frame id, read as
    a [size_t], is below [replacer_size_], and then leaves the object as
    it was; for every other frame id it returns normally. *)
Theorem RecordAccess_accepts_iff this f a :
  (static_cast_size_t f < replacer_size_ this ->
   RecordAccess f a this = (Throws std_exception, this))
  /\ (replacer_size_ this <= static_cast_size_t f ->
      fst (RecordAccess f a this) = Returns tt).
Proof.
  unfold RecordAccess.
  destruct (Z.gtb_spec (replacer_size_ this) (static_cast_size_t f)) as [Hlt|Hge].
  - split; [reflexivity | lia].
  - split; [lia |]. intros _. simpl.
    destruct (node_store_ this !! f); reflexivity.
Qed.

Lemma RecordAccess_accepts_iff_witness :
  RecordAccess 2 Lookup replacer_3_2 = (Throws std_exception, replacer_3_2)
  /\ fst (RecordAccess 3 Lookup replacer_3_2) = Returns tt.
Proof.
  split.
  - apply (RecordAccess_accepts_iff replacer_3_2 2 Lookup). vm_compute. reflexivity.
  - apply (RecordAccess_accepts_iff replacer_3_2 3 Lookup). vm_compute. discriminate.
Defined.

(** X2.  [SetEvictable] and [Remove] share one guard: they throw
    [std::out_of_range] exactly when the frame id, read as a [size_t],
    is above [replacer_size_]; a frame id equal to [replacer_size_] gets
    past it. *)
Theorem SetEvictable_Remove_guard this f b :
  (fst (SetEvictable f b this) = Throws std_out_of_range
   <-> replacer_size_ this < static_cast_size_t f)
  /\ (fst (Remove f this) = Throws std_out_of_range
      <-> replacer_size_ this < static_cast_size_t f).
Proof.
  unfold SetEvictable, Remove.
  destruct (Z.ltb_spec (replacer_size_ this) (static_cast_size_t f)) as [Hlt|Hge].
  - repeat split; auto.
  - split; (split; [| lia]).
    + destruct (node_store_ this !! f) as [node|]; simpl.
      * destruct (negb _); discriminate.
      * rewrite lookup_insert_eq. simpl. destruct b; discriminate.
    + destruct (node_store_ this !! f) as [node|]; [| discriminate].
      destruct (is_evictable_ node); discriminate.
Qed.

(** X3.  A frame id gets past the guard of [RecordAccess] and past the
    guard of [SetEvictable] only if, read as a [size_t], it equals
    [replacer_size_]: no other frame can be both accessed and marked. *)
Theorem accepted_by_both_guards this f a b :
  fst (RecordAccess f a this) = Returns tt
  /\ fst (SetEvictable f b this) = Returns tt
  <-> static_cast_size_t f = replacer_size_ this.
Proof.
  unfold RecordAccess, SetEvictable.
  destruct (Z.gtb_spec (replacer_size_ this) (static_cast_size_t f)) as [Hlt|Hge];
    destruct (Z.ltb_spec (replacer_size_ this) (static_cast_size_t f)) as [Hlt'|Hge'];
    try lia.
  - split; [intros [H _]; discriminate | lia].
  - split; [intros [_ H]; discriminate | lia].
  - split; [lia |]. intros _. split.
    + simpl. destruct (node_store_ this !! f); reflexivity.
    + destruct (node_store_ this !! f) as [node|]; simpl.
      * destruct (negb _); reflexivity.
      * rewrite lookup_insert_eq. simpl. destruct b; reflexivity.
Qed.

(** X4.  Negative frame ids: for a 32-bit negative [frame_id] and a
    replacer of at most 2^63 frames, the conversion to [size_t] gives a
    value above [replacer_size_], so [RecordAccess] takes the call and
    stores a node under the negative key, while [SetEvictable] and
    [Remove] throw [std::out_of_range]. *)
Theorem negative_frame_id this (f : frame_id_t) a b :
  - 2 ^ 31 <= f < 0 ->
  0 <= replacer_size_ this <= 2 ^ 63 ->
  fst (RecordAccess f a this) = Returns tt
  /\ is_Some (node_store_ (after (RecordAccess f a) this) !! f)
  /\ SetEvictable f b this = (Throws std_out_of_range, this)
  /\ Remove f this = (Throws std_out_of_range, this).
Proof.
  intros Hf Hn.
  assert (Hc : static_cast_size_t f = 2 ^ 64 + f).
  { unfold static_cast_size_t, SizeT.wrap, SizeT.modulus.
    rewrite <- (Z.mod_add f 1 (2 ^ 64)) by lia.
    rewrite Z.mod_small; lia. }
  assert (Hlt : replacer_size_ this < static_cast_size_t f) by lia.
  split; [apply RecordAccess_accepts_iff; lia |].
  split.
  - unfold after, RecordAccess.
    destruct (Z.gtb_spec (replacer_size_ this) (static_cast_size_t f)); [lia |].
    simpl. destruct (node_store_ this !! f) as [node|] eqn:Hs; simpl.
    + rewrite Hs. by eexists.
    + rewrite lookup_insert_eq. by eexists.
  - split; [by apply SetEvictable_throws |].
    unfold Remove.
    destruct (Z.ltb_spec (replacer_size_ this) (static_cast_size_t f)); [reflexivity | lia].
Qed.

Lemma negative_frame_id_witness :
  fst (RecordAccess (-1) Unknown replacer_3_2) = Returns tt
  /\ is_Some (node_store_ (after (RecordAccess (-1) Unknown) replacer_3_2) !! (-1))
  /\ SetEvictable (-1) true replacer_3_2 = (Throws std_out_of_range, replacer_3_2)
  /\ Remove (-1) replacer_3_2 = (Throws std_out_of_range, replacer_3_2).
Proof.
  apply (negative_frame_id replacer_3_2 (-1) Unknown true).
  - lia.
  - simpl. lia.
Defined.

(** ** Helpers: equality of objects, members no call writes *)

Lemma LRUKReplacer_eq (r r' : LRUKReplacer) :
  node_store_ r = node_store_ r' ->
  current_timestamp_ r = current_timestamp_ r' ->
  curr_size_ r = curr_size_ r' ->
  replacer_size_ r = replacer_size_ r' ->
  k_ r = k_ r' ->
  r = r'.
Proof. destruct r, r'. simpl. by intros -> -> -> -> ->. Qed.

Lemma decr_incr z : SizeT.decr (SizeT.incr z) = SizeT.wrap z.
Proof.
  unfold SizeT.decr, SizeT.incr, SizeT.wrap.
  rewrite Zminus_mod_idemp_l. f_equal. lia.
Qed.

Lemma incr_decr z : SizeT.incr (SizeT.decr z) = SizeT.wrap z.
Proof.
  unfold SizeT.decr, SizeT.incr, SizeT.wrap.
  rewrite Zplus_mod_idemp_l. f_equal. lia.
Qed.

Lemma RecordAccess_constants this f a :
  replacer_size_ (after (RecordAccess f a) this) = replacer_size_ this
  /\ k_ (after (RecordAccess f a) this) = k_ this
  /\ curr_size_ (after (RecordAccess f a) this) = curr_size_ this.
Proof.
  unfold after, RecordAccess.
  destruct (replacer_size_ this >? static_cast_size_t f); [done |].
  simpl. destruct (node_store_ this !! f); done.
Qed.

Lemma SetEvictable_constants this f b :
  replacer_size_ (after (SetEvictable f b) this) = replacer_size_ this
  /\ k_ (after (SetEvictable f b) this) = k_ this
  /\ current_timestamp_ (after (SetEvictable f b) this) = current_timestamp_ this.
Proof.
  unfold after, SetEvictable.
  destruct (replacer_size_ this <? static_cast_size_t f); [done |].
  destruct (node_store_ this !! f) as [node|]; simpl.
  - destruct (negb _); [destruct b |]; done.
  - rewrite lookup_insert_eq. simpl. destruct b; done.
Qed.

Lemma Remove_constants this f :
  replacer_size_ (after (Remove f) this) = replacer_size_ this
  /\ k_ (after (Remove f) this) = k_ this
  /\ current_timestamp_ (after (Remove f) this) = current_timestamp_ this.
Proof.
  unfold after, Remove.
  destruct (replacer_size_ this <? static_cast_size_t f); [done |].
  destruct (node_store_ this !! f) as [node|]; [| done].
  destruct (is_evictable_ node); done.
Qed.

Lemma Evict_constants this order v :
  replacer_size_ (snd (Evict order v this)) = replacer_size_ this
  /\ k_ (snd (Evict order v this)) = k_ this
  /\ current_timestamp_ (snd (Evict order v this)) = current_timestamp_ this.
Proof.
  unfold Evict. destruct (curr_size_ this <=? 0); [done |].
  generalize (mkEvict_locals false false 0 0). intros l.
  induction order as [|fid rest IH]; simpl; [done |].
  destruct (node_store_ this !! fid) as [node|]; [| exact IH].
  destruct (is_evictable_ node); simpl; [| exact IH].
  destruct (Evict_select _ _ _ _ _ _) as [l' w].
  destruct (success l'); done.
Qed.

(** A call whose flag is the stored flag changes nothing. *)
Lemma SetEvictable_same_flag this f b node :
  static_cast_size_t f <= replacer_size_ this ->
  node_store_ this !! f = Some node ->
  is_evictable_ node = b ->
  SetEvictable f b this = (Returns tt, this).
Proof.
  intros Hge Hf He. unfold SetEvictable.
  destruct (Z.ltb_spec (replacer_size_ this) (static_cast_size_t f)); [lia |].
  rewrite Hf. simpl. rewrite Hf. simpl. rewrite He.
  by destruct b.
Qed.

(** ** RecordAccess, SetEvictable and Remove *)

(** X5.  [RecordAccess] never touches evictability: [curr_size_] and the
    number of evictable nodes are as before, every stored flag is as
    before, and the node it creates for a new frame is not evictable. *)
Theorem RecordAccess_keeps_evictability this f a g :
  curr_size_ (after (RecordAccess f a) this) = curr_size_ this
  /\ evictable_count (after (RecordAccess f a) this) = evictable_count this
  /\ stored_evictable (after (RecordAccess f a) this) g
     = match stored_evictable this g with
       | Some e => Some e
       | None =>
           if decide (g = f)
           then (if replacer_size_ this >? static_cast_size_t f
                 then None else Some false)
           else None
       end.
Proof.
  split; [apply RecordAccess_constants |].
  unfold evictable_count, stored_evictable, after, RecordAccess.
  destruct (replacer_size_ this >? static_cast_size_t f); simpl.
  - split; [reflexivity |].
    destruct (node_store_ this !! g); simpl; [reflexivity |].
    by destruct (decide (g = f)).
  - destruct (node_store_ this !! f) as [node|] eqn:Hf; simpl.
    + split; [reflexivity |].
      destruct (decide (g = f)) as [->|Hne].
      * by rewrite Hf.
      * by destruct (node_store_ this !! g).
    + split.
      * rewrite count_evictable_insert_fresh by done.
        destruct (is_Scan a); simpl; lia.
      * destruct (decide (g = f)) as [->|Hne].
        -- rewrite lookup_insert_eq, Hf. by destruct (is_Scan a).
        -- rewrite lookup_insert_ne by done.
           by destruct (node_store_ this !! g).
Qed.

(** X6.  After a call that gets past the guard, the frame is stored with
    the flag that was asked for; the node of every other frame, the clock
    and the two sizes given at construction are as before. *)
Theorem SetEvictable_sets_flag this f b :
  static_cast_size_t f <= replacer_size_ this ->
  stored_evictable (after (SetEvictable f b) this) f = Some b
  /\ (forall g, g <> f ->
        node_store_ (after (SetEvictable f b) this) !! g = node_store_ this !! g)
  /\ current_timestamp_ (after (SetEvictable f b) this) = current_timestamp_ this
  /\ replacer_size_ (after (SetEvictable f b) this) = replacer_size_ this
  /\ k_ (after (SetEvictable f b) this) = k_ this.
Proof.
  intros Hge. unfold stored_evictable.
  rewrite (SetEvictable_store this f b Hge).
  destruct (SetEvictable_constants this f b) as (Hr & Hk & Hc).
  split; [by rewrite lookup_insert_eq |].
  split; [| done].
  intros g Hne. by rewrite lookup_insert_ne.
Qed.

Lemma SetEvictable_sets_flag_witness :
  stored_evictable (after (SetEvictable 2 true) replacer_3_2) 2 = Some true.
Proof.
  assert (Hge : static_cast_size_t 2 <= replacer_size_ replacer_3_2)
    by (vm_compute; discriminate).
  exact (proj1 (SetEvictable_sets_flag replacer_3_2 2 true Hge)).
Defined.

(** X7.  [SetEvictable] is idempotent: a second call with the same frame
    id and flag leaves the object exactly as the first call left it, and
    has the outcome of the first. *)
Theorem SetEvictable_idempotent this f b :
  SetEvictable f b (after (SetEvictable f b) this)
  = (fst (SetEvictable f b this), after (SetEvictable f b) this).
Proof.
  destruct (Z.ltb_spec (replacer_size_ this) (static_cast_size_t f)) as [Hlt|Hge].
  - unfold after. rewrite (SetEvictable_throws this f b Hlt). simpl.
    by apply SetEvictable_throws.
  - assert (Hout : fst (SetEvictable f b this) = Returns tt).
    { unfold SetEvictable.
      destruct (Z.ltb_spec (replacer_size_ this) (static_cast_size_t f)); [lia |].
      destruct (node_store_ this !! f) as [node|]; simpl.
      - by destruct (negb _).
      - rewrite lookup_insert_eq. simpl. by destruct b. }
    rewrite Hout.
    destruct (SetEvictable_constants this f b) as (Hr & _).
    eapply SetEvictable_same_flag.
    + by rewrite Hr.
    + rewrite (SetEvictable_store this f b Hge). apply lookup_insert_eq.
    + reflexivity.
Qed.

(** X8.  Flipping the flag of a stored frame and flipping it back gives
    the object back, evictable count included. *)
Theorem SetEvictable_flip_and_back this f node :
  static_cast_size_t f <= replacer_size_ this ->
  node_store_ this !! f = Some node ->
  SizeT.in_range (curr_size_ this) ->
  after (SetEvictable f (is_evictable_ node))
    (after (SetEvictable f (negb (is_evictable_ node))) this)
  = this.
Proof.
  intros Hge Hf Hr.
  set (this1 := after (SetEvictable f (negb (is_evictable_ node))) this).
  destruct (SetEvictable_constants this f (negb (is_evictable_ node)))
    as (Hr1 & Hk1 & Hc1). fold this1 in Hr1, Hk1, Hc1.
  assert (Hge1 : static_cast_size_t f <= replacer_size_ this1) by (by rewrite Hr1).
  assert (Hs1 : node_store_ this1
                = <[f := set_is_evictable (negb (is_evictable_ node)) node]>
                    (node_store_ this)).
  { unfold this1. rewrite (SetEvictable_store this f _ Hge), Hf. reflexivity. }
  assert (Hz1 : curr_size_ this1
                = if is_evictable_ node
                  then SizeT.decr (curr_size_ this)
                  else SizeT.incr (curr_size_ this)).
  { unfold this1. rewrite (SetEvictable_curr_size this f _ Hge), Hf. simpl.
    by destruct (is_evictable_ node). }
  destruct (SetEvictable_constants this1 f (is_evictable_ node)) as (Hr2 & Hk2 & Hc2).
  apply LRUKReplacer_eq; try congruence.
  - rewrite (SetEvictable_store this1 f _ Hge1), Hs1, lookup_insert_eq.
    simpl. rewrite insert_insert_eq. apply insert_id. rewrite Hf. f_equal.
    by destruct node.
  - rewrite (SetEvictable_curr_size this1 f _ Hge1), Hs1, lookup_insert_eq, Hz1.
    simpl. destruct (is_evictable_ node); simpl.
    + rewrite incr_decr. by apply wrap_in_range.
    + rewrite decr_incr. by apply wrap_in_range.
Qed.

Lemma SetEvictable_flip_and_back_witness :
  after (SetEvictable 3 true) (after (SetEvictable 3 false) touched_once)
  = touched_once.
Proof.
  assert (Hge : static_cast_size_t 3 <= replacer_size_ touched_once)
    by (vm_compute; discriminate).
  assert (Hn : node_store_ touched_once !! (3 : frame_id_t)
               = Some (mkLRUKNode [1] (-1) 0 true))
    by (vm_compute; reflexivity).
  assert (Hr : SizeT.in_range (curr_size_ touched_once))
    by (vm_compute; split; [discriminate | reflexivity]).
  exact (SetEvictable_flip_and_back touched_once 3 _ Hge Hn Hr).
Defined.

(** X9.  How an accepted [SetEvictable] moves [Size()].  Writing [old]
    for the flag before the call (off for a frame without a node): the
    count stays when the flag stays, goes up by one from off to on, and
    down by one from on to off. *)
Theorem SetEvictable_size_change this f b :
  static_cast_size_t f <= replacer_size_ this ->
  SizeT.in_range (curr_size_ this) ->
  let old := default false (stored_evictable this f) in
  let size' := curr_size_ (after (SetEvictable f b) this) in
  (old = b -> size' = curr_size_ this)
  /\ (old = false -> b = true -> curr_size_ this < SizeT.max ->
      size' = curr_size_ this + 1)
  /\ (old = true -> b = false -> 0 < curr_size_ this ->
      size' = curr_size_ this - 1).
Proof.
  intros Hge Hr. cbv zeta.
  rewrite (SetEvictable_curr_size this f b Hge). cbv zeta.
  unfold stored_evictable. unfold SizeT.in_range in Hr.
  destruct (node_store_ this !! f) as [node|]; simpl.
  - repeat split.
    + intros ->. by destruct b.
    + intros -> ->. simpl. intros Hm. apply incr_below_max. lia.
    + intros -> ->. simpl. intros Hp. apply decr_pos. lia.
  - repeat split.
    + by intros <-.
    + intros _ ->. simpl. intros Hm. apply incr_below_max. lia.
    + discriminate.
Qed.

Lemma SetEvictable_size_change_witness :
  curr_size_ (after (SetEvictable 2 true) replacer_3_2) = curr_size_ replacer_3_2 + 1
  /\ curr_size_ (after (SetEvictable 3 false) touched_once) = curr_size_ touched_once - 1
  /\ curr_size_ (after (SetEvictable 3 true) touched_once) = curr_size_ touched_once.
Proof.
  assert (Hge2 : static_cast_size_t 2 <= replacer_size_ replacer_3_2)
    by (vm_compute; discriminate).
  assert (Hr0 : SizeT.in_range (curr_size_ replacer_3_2))
    by (vm_compute; split; [discriminate | reflexivity]).
  assert (Hge3 : static_cast_size_t 3 <= replacer_size_ touched_once)
    by (vm_compute; discriminate).
  assert (Hr1 : SizeT.in_range (curr_size_ touched_once))
    by (vm_compute; split; [discriminate | reflexivity]).
  split; [| split].
  - apply (SetEvictable_size_change replacer_3_2 2 true Hge2 Hr0);
      [reflexivity | reflexivity | vm_compute; reflexivity].
  - apply (SetEvictable_size_change touched_once 3 false Hge3 Hr1);
      [reflexivity | reflexivity | vm_compute; reflexivity].
  - apply (SetEvictable_size_change touched_once 3 true Hge3 Hr1). reflexivity.
Defined.

(** X10.  [Remove] never erases a node and returns.  It returns normally
    exactly when the frame id passes the guard and has no node, and
    throws [std::exception] exactly when the node is stored with the
    evictable flag off; whenever its behaviour is defined, the object is
    left as it was.  On a stored node with the flag on, and only there,
    it erases the node and then uses it (line 151): undefined
    behaviour. *)
Theorem Remove_outcome_cases this f :
  (fst (Remove f this) = Returns tt
   <-> static_cast_size_t f <= replacer_size_ this /\ node_store_ this !! f = None)
  /\ (fst (Remove f this) = Throws std_exception
      <-> static_cast_size_t f <= replacer_size_ this
          /\ stored_evictable this f = Some false)
  /\ (fst (Remove f this) = Undefined
      <-> static_cast_size_t f <= replacer_size_ this
          /\ stored_evictable this f = Some true)
  /\ (fst (Remove f this) <> Undefined -> snd (Remove f this) = this).
Proof.
  unfold Remove, stored_evictable.
  destruct (Z.ltb_spec (replacer_size_ this) (static_cast_size_t f)) as [Hlt|Hge].
  - simpl. repeat split; try discriminate; intros [? _]; lia.
  - destruct (node_store_ this !! f) as [node|]; simpl.
    + destruct (is_evictable_ node); simpl.
      * repeat split; try discriminate; try done.
        all: intros [_ H]; discriminate.
      * repeat split; try discriminate; try done.
        all: intros [_ H]; discriminate.
    + repeat split; try discriminate; try done.
      all: intros [_ H]; discriminate.
Qed.

Lemma Remove_outcome_cases_witness :
  snd (Remove 0 touched_once_pinned_0) = touched_once_pinned_0
  /\ fst (Remove 2 touched_once) = Returns tt.
Proof.
  split.
  - apply (Remove_outcome_cases touched_once_pinned_0 0). vm_compute. discriminate.
  - apply (Remove_outcome_cases touched_once 2).
    split; [vm_compute; discriminate | vm_compute; reflexivity].
Defined.

(** ** Runs *)

Lemma run_op_constants o this :
  replacer_size_ (run_op o this) = replacer_size_ this
  /\ k_ (run_op o this) = k_ this.
Proof.
  destruct o as [f a|f b|f|order v]; simpl.
  - destruct (RecordAccess_constants this f a) as (? & ? & _). done.
  - destruct (SetEvictable_constants this f b) as (? & ? & _). done.
  - destruct (Remove_constants this f) as (? & ? & _). done.
  - destruct (Evict_constants this order v) as (? & ? & _). done.
Qed.

Lemma run_app ops ops' this : run (ops ++ ops') this = run ops' (run ops this).
Proof. unfold run. apply fold_left_app. Qed.

Lemma run_constants ops this :
  replacer_size_ (run ops this) = replacer_size_ this
  /\ k_ (run ops this) = k_ this.
Proof.
  revert this. induction ops as [|o ops IH]; intros this; [done |].
  change (run (o :: ops) this) with (run ops (run_op o this)).
  destruct (IH (run_op o this)) as [-> ->]. apply run_op_constants.
Qed.

Lemma wrap_bounds z : SizeT.in_range (SizeT.wrap z).
Proof.
  unfold SizeT.in_range, SizeT.wrap.
  apply Z.mod_pos_bound. unfold SizeT.modulus. lia.
Qed.

Lemma wrap_succ z : SizeT.incr (SizeT.wrap z) = SizeT.wrap (z + 1).
Proof. unfold SizeT.incr, SizeT.wrap. by rewrite Zplus_mod_idemp_l. Qed.

Lemma run_op_clock n o this :
  replacer_size_ this = n ->
  current_timestamp_ (run_op o this)
  = if accepted_access n o
    then SizeT.incr (current_timestamp_ this)
    else current_timestamp_ this.
Proof.
  intros <-. destruct o as [f a|f b|f|order v]; simpl.
  - unfold after, RecordAccess.
    destruct (replacer_size_ this >? static_cast_size_t f); simpl; [done |].
    by destruct (node_store_ this !! f).
  - apply SetEvictable_constants.
  - apply Remove_constants.
  - apply Evict_constants.
Qed.

(** X12.  The logical clock counts the [RecordAccess] calls that got past
    the guard, modulo 2^64: on a replacer built for [n] frames, after any
    sequence of calls [current_timestamp_] is the number of such calls in
    the sequence; rejected calls, [SetEvictable], [Remove] and [Evict]
    never move it. *)
Theorem clock_counts_accepted_accesses n k ops :
  current_timestamp_ (run ops (LRUKReplacer_init n k))
  = SizeT.wrap (Z.of_nat (length (filter (fun o => accepted_access n o = true) ops))).
Proof.
  induction ops as [|o ops IH] using rev_ind; [reflexivity |].
  rewrite run_app. simpl.
  rewrite (run_op_clock n) by apply run_constants.
  rewrite filter_app, length_app, IH. simpl.
  rewrite filter_cons, filter_nil.
  destruct (accepted_access n o) eqn:Ha.
  - rewrite decide_True by done. simpl. rewrite wrap_succ. f_equal. lia.
  - rewrite decide_False by done. simpl. f_equal. lia.
Qed.

Lemma weight_bounds o : 0 <= weight o <= 1.
Proof. destruct o as [node|]; simpl; [destruct (is_evictable_ node) |]; lia. Qed.

Lemma run_op_count_le o this :
  is_OpEvict o = false ->
  evictable_count (run_op o this) <= evictable_count this + 1.
Proof.
  unfold evictable_count.
  destruct o as [f a|f b|f|order v]; simpl; [| | | discriminate]; intros _.
  - unfold after, RecordAccess.
    destruct (replacer_size_ this >? static_cast_size_t f); simpl; [lia |].
    destruct (node_store_ this !! f) as [node|] eqn:Hf; simpl; [lia |].
    rewrite count_evictable_insert_fresh by done.
    destruct (is_Scan a); simpl; lia.
  - destruct (Z.ltb_spec (replacer_size_ this) (static_cast_size_t f)) as [Hlt|Hge].
    + unfold after. rewrite (SetEvictable_throws this f b Hlt). simpl. lia.
    + rewrite (SetEvictable_store this f b Hge), count_evictable_insert.
      pose proof (weight_bounds (node_store_ this !! f)) as Hw.
      pose proof (weight_bounds
                    (Some (set_is_evictable b
                             (default LRUKNode_default (node_store_ this !! f)))))
        as Hw'.
      unfold frame_id_t in *. lia.
  - unfold after, Remove.
    destruct (replacer_size_ this <? static_cast_size_t f); [simpl; lia |].
    destruct (node_store_ this !! f) as [node|] eqn:Hf; [| simpl; lia].
    destruct (is_evictable_ node) eqn:He; simpl; [| lia].
    unfold frame_id_t in *.
    rewrite count_evictable_delete, Hf. simpl. rewrite He. lia.
Qed.

Lemma run_op_size_inv o this :
  is_OpEvict o = false ->
  op_defined o this = true ->
  size_inv this ->
  evictable_count this < SizeT.max ->
  size_inv (run_op o this).
Proof.
  destruct o as [f a|f b|f|order v]; simpl; [| | | discriminate];
    intros _ Hdef Hinv Hmax.
  - by apply RecordAccess_size_inv.
  - by apply SetEvictable_size_inv.
  - apply Remove_size_inv; [done |]. by apply negb_true_iff.
Qed.

Lemma run_size_inv_bounded ops this c :
  Forall (fun o => is_OpEvict o = false) ops ->
  run_defined ops this = true ->
  size_inv this ->
  evictable_count this <= c ->
  c + Z.of_nat (length ops) < SizeT.max ->
  size_inv (run ops this)
  /\ evictable_count (run ops this) <= c + Z.of_nat (length ops).
Proof.
  intros Hops. revert this c.
  induction Hops as [|o ops Ho _ IH]; intros this c Hdef Hinv Hc Hmax; simpl in *.
  - split; [done | lia].
  - change (run (o :: ops) this) with (run ops (run_op o this)).
    apply andb_true_iff in Hdef as [Hdo Hdops].
    pose proof (run_op_count_le o this Ho) as Hle.
    destruct (IH (run_op o this) (c + 1)) as [Hinv' Hc']; try lia.
    + exact Hdops.
    + apply run_op_size_inv; [done | done | done | lia].
    + split; [done | lia].
Qed.

(** X13.  As long as [Evict] is not called and no call runs into undefined
    behaviour, [Size()] is the number of evictable nodes: after any such
    sequence of fewer than 2^64 - 1 calls of [RecordAccess],
    [SetEvictable] and [Remove] on a fresh replacer, whether they return
    or throw, [Size()] returns the number of stored nodes whose flag is
    on. *)
Theorem Size_counts_evictable_without_Evict n k ops :
  Forall (fun o => is_OpEvict o = false) ops ->
  run_defined ops (LRUKReplacer_init n k) = true ->
  Z.of_nat (length ops) < SizeT.max ->
  fst (Size (run ops (LRUKReplacer_init n k)))
  = Returns (evictable_count (run ops (LRUKReplacer_init n k))).
Proof.
  intros Hops Hdef Hlen. unfold Size. simpl. f_equal.
  by apply (run_size_inv_bounded ops (LRUKReplacer_init n k) 0).
Qed.

Lemma Size_counts_evictable_without_Evict_witness :
  fst (Size (run [OpSetEvictable 1 true; OpRecordAccess 3 Lookup;
                  OpSetEvictable 3 true; OpRemove 2; OpRemove 7;
                  OpSetEvictable 1 false; OpRemove 1]
                 (LRUKReplacer_init 3 2)))
  = Returns (evictable_count
               (run [OpSetEvictable 1 true; OpRecordAccess 3 Lookup;
                     OpSetEvictable 3 true; OpRemove 2; OpRemove 7;
                     OpSetEvictable 1 false; OpRemove 1]
                    (LRUKReplacer_init 3 2))).
Proof.
  apply Size_counts_evictable_without_Evict.
  - repeat constructor.
  - vm_compute. reflexivity.
  - vm_compute. reflexivity.
Defined.

(** ** More on Evict *)

Lemma Evict_loop_all_passed_over this order l v :
  Forall (passed_over this) order ->
  Evict_loop order l v this = (false, v, this).
Proof.
  intros H. rewrite <- (app_nil_r order).
  by rewrite (Evict_loop_skip this order [] l v H).
Qed.

Lemma Evict_loop_false_passed_over this order l v :
  fst (fst (Evict_loop order l v this)) = false ->
  Forall (passed_over this) order.
Proof.
  induction order as [|fid rest IH]; simpl; [by constructor |].
  destruct (node_store_ this !! fid) as [node|] eqn:Hn.
  - destruct (is_evictable_ node) eqn:He; simpl.
    + match goal with
      | |- context [Evict_select ?n ?k ?i ?d ?c ?x] =>
          pose proof (Evict_select_success n k i d c x) as Hsucc;
          destruct (Evict_select n k i d c x) as [l' w]
      end.
      simpl in Hsucc. rewrite Hsucc. simpl. discriminate.
    + intros H. constructor; [| by apply IH].
      intros node' Hn'. unfold frame_id_t in *. congruence.
  - intros H. constructor; [| by apply IH].
    intros node' Hn'. unfold frame_id_t in *. congruence.
Qed.

Lemma Evict_false_cases this order v :
  fst (fst (Evict order v this)) = false
  <-> curr_size_ this <= 0 \/ Forall (passed_over this) order.
Proof.
  unfold Evict.
  destruct (Z.leb_spec (curr_size_ this) 0) as [Hle|Hpos].
  - split; [by left | reflexivity].
  - split.
    + intros H. right. by apply Evict_loop_false_passed_over in H.
    + intros [Hle | Hall]; [lia |].
      by rewrite Evict_loop_all_passed_over.
Qed.

(** X14.  [Evict] returns [false] exactly when [curr_size_] is 0 (or
    below) or the traversal meets no stored evictable node; it then leaves
    both the caller's variable and the object as they were. *)
Theorem Evict_false_iff this order v :
  (fst (fst (Evict order v this)) = false
   <-> curr_size_ this <= 0 \/ Forall (passed_over this) order)
  /\ (fst (fst (Evict order v this)) = false ->
      Evict order v this = (false, v, this)).
Proof.
  split; [apply Evict_false_cases |].
  intros [Hle | Hall]%Evict_false_cases; unfold Evict.
  - destruct (Z.leb_spec (curr_size_ this) 0); [reflexivity | lia].
  - destruct (curr_size_ this <=? 0); [reflexivity |].
    by apply Evict_loop_all_passed_over.
Qed.

Lemma Evict_false_iff_witness :
  Evict [0; 3] 9 (after (SetEvictable 3 false) touched_once_pinned_0)
  = (false, 9, after (SetEvictable 3 false) touched_once_pinned_0).
Proof.
  apply (Evict_false_iff (after (SetEvictable 3 false) touched_once_pinned_0) [0; 3] 9).
  vm_compute. reflexivity.
Defined.

(** On an object whose evictable count is right, a traversal that meets
    no evictable node means that the count is 0. *)
Lemma all_passed_over_count this order :
  traversal this order ->
  Forall (passed_over this) order ->
  evictable_count this = 0.
Proof.
  intros Ht Hall. unfold evictable_count, count_evictable.
  assert (He : filter (fun kv => is_evictable_ kv.2 = true) (node_store_ this) = ∅).
  { apply map_empty. intros i. apply map_lookup_filter_None. right.
    intros node Hn. simpl.
    assert (Hi : i ∈ order).
    { unfold traversal in Ht. rewrite Ht. apply elem_of_elements, elem_of_dom.
      by eexists. }
    rewrite Forall_forall in Hall. rewrite (Hall i Hi node Hn). discriminate. }
  rewrite He, map_size_empty. reflexivity.
Qed.

(** X15.  On an object where [curr_size_] is the number of evictable
    nodes, [Evict] returns [true] exactly when [Size()] is positive,
    whatever the traversal. *)
Theorem Evict_true_iff_Size_positive this order v :
  size_inv this ->
  traversal this order ->
  fst (fst (Evict order v this)) = true <-> 0 < curr_size_ this.
Proof.
  intros Hinv Ht. split.
  - intros Htrue.
    destruct (Z.leb_spec (curr_size_ this) 0) as [Hle|Hpos]; [| exact Hpos].
    assert (Hf : fst (fst (Evict order v this)) = false).
    { apply Evict_false_cases. by left. }
    congruence.
  - intros Hpos.
    destruct (fst (fst (Evict order v this))) eqn:Hres; [reflexivity |].
    apply Evict_false_cases in Hres as [Hle | Hall]; [lia |].
    pose proof (all_passed_over_count this order Ht Hall) as H0.
    unfold size_inv in Hinv. lia.
Qed.

Lemma Evict_true_iff_Size_positive_witness :
  fst (fst (Evict [3] 7 touched_once)) = true <-> 0 < curr_size_ touched_once.
Proof.
  apply Evict_true_iff_Size_positive.
  - unfold size_inv. vm_compute. reflexivity.
  - unfold traversal. vm_compute. reflexivity.
Defined.

(** Lines 49-68 on the first evictable node, where the locals still have
    their initial values. *)
Lemma Evict_select_initial now k fid node v :
  snd (Evict_select now k fid node (mkEvict_locals false true 0 0) v)
  = if Evict_assigns now k node then fid else v.
Proof.
  unfold Evict_select, Evict_assigns, history_size, GetBackKTimeStamp.
  destruct (history_ node) as [|t h] eqn:Hh.
  - cbn [is_inf max_bkd max_lessk_bkd negb andb length].
    destruct (Z.of_nat 0 =? k); cbn [andb].
    + destruct (_ >? _); reflexivity.
    + destruct (Z.of_nat 0 <? k); [| reflexivity].
      destruct (_ >? _); reflexivity.
  - cbn [is_inf max_bkd max_lessk_bkd negb].
    pose proof (wrap_bounds (now - t)) as Hb.
    unfold SizeT.in_range in Hb. fold (SizeT.sub now t) in Hb.
    set (n := Z.of_nat (length (t :: h))).
    destruct (Z.eqb_spec n k) as [Heq|Hne]; cbn [andb].
    + destruct (Z.gtb_spec (SizeT.sub now t) 0) as [Hgt|Hle]; cbn [snd].
      * destruct (Z.leb_spec n k); [| lia].
        destruct (Z.eqb_spec (SizeT.sub now t) 0); [lia | reflexivity].
      * destruct (Z.eqb_spec (SizeT.sub now t) 0) as [_|Hn0]; [| lia].
        cbn [negb]. by rewrite andb_false_r.
    + destruct (Z.ltb_spec n k) as [Hlt|Hge].
      * cbn [max_lessk_bkd].
        destruct (Z.gtb_spec (SizeT.sub now t) 0) as [Hgt|Hle]; cbn [snd].
        -- destruct (Z.leb_spec n k); [| lia].
           destruct (Z.eqb_spec (SizeT.sub now t) 0); [lia | reflexivity].
        -- destruct (Z.eqb_spec (SizeT.sub now t) 0) as [_|Hn0]; [| lia].
           cbn [negb]. by rewrite andb_false_r.
      * cbn [snd]. destruct (Z.leb_spec n k); [lia | reflexivity].
Qed.

Lemma Evict_first_evictable_result this skipped fid node rest v :
  Forall (passed_over this) skipped ->
  node_store_ this !! fid = Some node ->
  is_evictable_ node = true ->
  0 < curr_size_ this ->
  Evict (skipped ++ fid :: rest) v this
  = let w := if Evict_assigns (current_timestamp_ this) (k_ this) node
             then fid else v in
    (true, w,
     set_node_store (delete w (node_store_ this))
       (set_curr_size (SizeT.decr (curr_size_ this)) this)).
Proof.
  intros Hs Hn He Hpos.
  rewrite (Evict_decided_by_first_evictable this skipped fid node rest v Hs Hn He).
  unfold Evict. destruct (Z.leb_spec (curr_size_ this) 0); [lia |].
  simpl. rewrite Hn, He. simpl.
  match goal with
  | |- context [Evict_select ?n ?k ?i ?d ?c ?x] =>
      pose proof (Evict_select_success n k i d c x) as Hsucc;
      pose proof (Evict_select_initial n k i d x) as Hsel;
      destruct (Evict_select n k i d c x) as [l' w]
  end.
  simpl in Hsucc, Hsel. rewrite Hsucc, Hsel. reflexivity.
Qed.

(** X16.  What a successful [Evict] hands back.  Let the first stored
    evictable node of the traversal be [(fid, node)] (everything before
    it is passed over, nothing after it is looked at).  [Evict] returns
    [true]; [*frame_id] is [fid] if the history of the node is empty, or
    has at most [k] entries with a front other than the current
    tick, and is the caller's own value otherwise; the node under the
    value handed back is erased and [curr_size_] decremented. *)
Theorem Evict_outcome this skipped fid node rest v :
  Forall (passed_over this) skipped ->
  node_store_ this !! fid = Some node ->
  is_evictable_ node = true ->
  0 < curr_size_ this ->
  Evict (skipped ++ fid :: rest) v this
  = let w := if Evict_assigns (current_timestamp_ this) (k_ this) node
             then fid else v in
    (true, w,
     set_node_store (delete w (node_store_ this))
       (set_curr_size (SizeT.decr (curr_size_ this)) this)).
Proof. apply Evict_first_evictable_result. Qed.

Lemma Evict_outcome_witness :
  Evict [0; 3; 5] 9 (after (RecordAccess 4 Lookup) touched_once_pinned_0)
  = (true, 3,
     set_node_store
       (delete 3 (node_store_ (after (RecordAccess 4 Lookup) touched_once_pinned_0)))
       (set_curr_size 0 (after (RecordAccess 4 Lookup) touched_once_pinned_0))).
Proof.
  apply (Evict_outcome (after (RecordAccess 4 Lookup) touched_once_pinned_0)
           [0] 3 (mkLRUKNode [1] (-1) 0 true) [5] 9).
  - constructor; [| constructor]. intros node. vm_compute. by intros [= <-].
  - vm_compute. reflexivity.
  - reflexivity.
  - vm_compute. reflexivity.
Defined.

Lemma Evict_select_frame now k fid node l v :
  snd (Evict_select now k fid node l v) = fid
  \/ snd (Evict_select now k fid node l v) = v.
Proof.
  unfold Evict_select.
  destruct (history_ node); simpl.
  - destruct (_ && _).
    + destruct (_ >? _); auto.
    + destruct (_ <? _); [destruct (_ >? _) |]; auto.
  - destruct (_ && _).
    + destruct (_ >? _); auto.
    + destruct (_ <? _); [destruct (_ >? _) |]; auto.
Qed.

Lemma Evict_loop_frame this order l v v' this' :
  Evict_loop order l v this = (true, v', this') ->
  v' = v \/ (v' ∈ order /\ stored_evictable this v' = Some true).
Proof.
  induction order as [|fid rest IH]; simpl; [discriminate |].
  assert (Hrest : Evict_loop rest l v this = (true, v', this') ->
                  v' = v \/ (v' ∈ fid :: rest /\ stored_evictable this v' = Some true)).
  { intros [-> | [Hin Hst]]%IH; [by left | right].
    split; [by apply list_elem_of_further | done]. }
  destruct (node_store_ this !! fid) as [node|] eqn:Hn; [| exact Hrest].
  destruct (is_evictable_ node) eqn:He; simpl; [| exact Hrest].
  match goal with
  | |- context [Evict_select ?n ?k ?i ?d ?c ?x] =>
      pose proof (Evict_select_frame n k i d c x) as Hfr;
      destruct (Evict_select n k i d c x) as [l' w]
  end.
  simpl in Hfr. intros [= _ <- _].
  destruct Hfr as [-> | ->]; [right | by left].
  split; [apply list_elem_of_here |].
  unfold stored_evictable. unfold frame_id_t in *. by rewrite Hn, <- He.
Qed.

(** X17.  A successful [Evict] lowers [Size()] by exactly one, erases the
    node stored under the frame id it hands back, and leaves the clock,
    [replacer_size_] and [k_] alone.  The frame id handed back is either
    the value the caller's variable already held, or a key of the
    traversal whose node was stored with the evictable flag on. *)
Theorem Evict_success_effect this order v v' this' :
  SizeT.in_range (curr_size_ this) ->
  Evict order v this = (true, v', this') ->
  curr_size_ this' = curr_size_ this - 1
  /\ node_store_ this' = delete v' (node_store_ this)
  /\ current_timestamp_ this' = current_timestamp_ this
  /\ replacer_size_ this' = replacer_size_ this
  /\ k_ this' = k_ this
  /\ (v' = v \/ (v' ∈ order /\ stored_evictable this v' = Some true)).
Proof.
  intros Hr He.
  destruct (Evict_true_effect this order v v' this' Hr He) as (Hs & Hm & Hc).
  destruct (Evict_constants this order v) as (Hrs & Hk & _).
  rewrite He in Hrs, Hk. simpl in Hrs, Hk.
  repeat split; try done.
  revert He. unfold Evict.
  destruct (curr_size_ this <=? 0); [discriminate |].
  apply Evict_loop_frame.
Qed.

Lemma Evict_success_effect_witness :
  curr_size_ (snd (Evict [3] 7 touched_once)) = curr_size_ touched_once - 1
  /\ node_store_ (snd (Evict [3] 7 touched_once)) = delete 7 (node_store_ touched_once).
Proof.
  assert (Hr : SizeT.in_range (curr_size_ touched_once))
    by (vm_compute; split; [discriminate | reflexivity]).
  destruct (Evict_success_effect touched_once [3] 7 7
              (snd (Evict [3] 7 touched_once)) Hr eq_refl) as (Hs & Hm & _).
  split; [exact Hs | exact Hm].
Defined.

(** X18.  A frame without a node is made evictable while no other stored
    node is evictable: the next [Evict] returns [true] with that frame in
    [*frame_id], under every traversal and whatever the caller's variable
    held, and the object is the one before the two calls. *)
Theorem SetEvictable_then_Evict this f order v :
  static_cast_size_t f <= replacer_size_ this ->
  node_store_ this !! f = None ->
  (forall g, passed_over this g) ->
  0 <= curr_size_ this < SizeT.max ->
  traversal (after (SetEvictable f true) this) order ->
  Evict order v (after (SetEvictable f true) this) = (true, f, this).
Proof.
  intros Hge Hf Hnone Hr Ht.
  set (this1 := after (SetEvictable f true) this) in *.
  destruct (SetEvictable_constants this f true) as (Hr1 & Hk1 & Hc1).
  fold this1 in Hr1, Hk1, Hc1.
  assert (Hs1 : node_store_ this1
                = <[f := set_is_evictable true LRUKNode_default]> (node_store_ this)).
  { unfold this1. rewrite (SetEvictable_store this f _ Hge), Hf. reflexivity. }
  assert (Hz1 : curr_size_ this1 = curr_size_ this + 1).
  { unfold this1. rewrite (SetEvictable_curr_size this f _ Hge), Hf. simpl.
    apply incr_below_max. lia. }
  assert (Hin : f ∈ order).
  { unfold traversal in Ht. rewrite Ht. apply elem_of_elements, elem_of_dom.
    rewrite Hs1, lookup_insert_eq. by eexists. }
  apply list_elem_of_split_l in Hin as (l1 & l2 & -> & Hnotin).
  assert (Hskip : Forall (passed_over this1) l1).
  { apply Forall_forall. intros g Hg node Hnode.
    assert (Hne : g <> f) by (intros ->; done).
    rewrite Hs1, lookup_insert_ne in Hnode by done.
    by apply (Hnone g). }
  rewrite (Evict_first_evictable_result this1 l1 f
             (set_is_evictable true LRUKNode_default) l2 v Hskip).
  - simpl. f_equal. apply LRUKReplacer_eq; simpl; try done.
    + rewrite Hs1, delete_insert_eq. by apply delete_id.
    + rewrite Hz1. rewrite decr_pos; unfold SizeT.max in *; lia.
  - rewrite Hs1. apply lookup_insert_eq.
  - reflexivity.
  - lia.
Qed.

Lemma SetEvictable_then_Evict_witness :
  Evict [2; 4] 9 (after (SetEvictable 2 true) (after (RecordAccess 4 Index) replacer_3_2))
  = (true, 2, after (RecordAccess 4 Index) replacer_3_2).
Proof.
  apply (SetEvictable_then_Evict (after (RecordAccess 4 Index) replacer_3_2) 2 [2; 4] 9).
  - vm_compute. discriminate.
  - vm_compute. reflexivity.
  - intros g node Hg.
    assert (Hs : node_store_ (after (RecordAccess 4 Index) replacer_3_2)
                 = {[ 4 := mkLRUKNode [1] (-1) 0 false ]})
      by (vm_compute; reflexivity).
    rewrite Hs in Hg. apply lookup_singleton_Some in Hg as [_ <-]. reflexivity.
  - vm_compute. split; [discriminate | reflexivity].
  - unfold traversal. vm_compute. apply (Permutation_rev [2; 4]).
Defined.

(** ** Invariants of reachable objects *)

Lemma step_constants this this' :
  step this this' ->
  replacer_size_ this' = replacer_size_ this /\ k_ this' = k_ this.
Proof.
  intros [this0 f a|this0 f b|this0 f|this0 order v _].
  - destruct (RecordAccess_constants this0 f a) as (? & ? & _). done.
  - destruct (SetEvictable_constants this0 f b) as (? & ? & _). done.
  - destruct (Remove_constants this0 f) as (? & ? & _). done.
  - destruct (Evict_constants this0 order v) as (? & ? & _). done.
Qed.

Lemma reachable_constants n k this :
  reachable n k this -> replacer_size_ this = n /\ k_ this = k.
Proof.
  induction 1 as [|this this' _ [IHn IHk] Hstep]; [done |].
  destruct (step_constants this this' Hstep) as [-> ->]. done.
Qed.

Lemma Remove_store_subseteq this f :
  node_store_ (after (Remove f) this) ⊆ node_store_ this.
Proof.
  unfold after, Remove.
  destruct (replacer_size_ this <? static_cast_size_t f); [done |].
  destruct (node_store_ this !! f) as [old|]; [| done].
  destruct (is_evictable_ old); simpl; [apply delete_subseteq | done].
Qed.

Lemma step_frames_separated this this' :
  step this this' -> frames_separated this -> frames_separated this'.
Proof.
  intros Hstep Hinv g node.
  destruct (step_constants this this' Hstep) as [Hrs _]. rewrite Hrs. clear Hrs.
  destruct Hstep as [this f a|this f b|this f|this order v Ht].
  - destruct (node_store_ this !! f) as [old|] eqn:Hf.
    + rewrite (RecordAccess_stored_keeps_store this f a old Hf). apply Hinv.
    + destruct (fst (RecordAccess f a this)) as [[]|e|] eqn:Hout;
        [| | by destruct (RecordAccess_defined this f a)].
      * rewrite (RecordAccess_fresh this f a Hout Hf).
        destruct (decide (g = f)) as [->|Hne].
        -- rewrite lookup_insert_eq. intros [= <-]. simpl.
           split; [| discriminate]. intros _.
           destruct (Z.gtb_spec (replacer_size_ this) (static_cast_size_t f))
             as [Hlt|Hge]; [| exact Hge].
           revert Hout. unfold RecordAccess.
           destruct (Z.gtb_spec (replacer_size_ this) (static_cast_size_t f));
             [discriminate | lia].
        -- rewrite lookup_insert_ne by done. apply Hinv.
      * unfold after. rewrite (RecordAccess_throws_unchanged this f a e Hout).
        apply Hinv.
  - destruct (Z.ltb_spec (replacer_size_ this) (static_cast_size_t f)) as [Hlt|Hge].
    + unfold after. rewrite (SetEvictable_throws this f b Hlt). apply Hinv.
    + rewrite (SetEvictable_store this f b Hge).
      destruct (decide (g = f)) as [->|Hne].
      * rewrite lookup_insert_eq. intros [= <-]. simpl.
        split; [| intros _; exact Hge].
        destruct (node_store_ this !! f) as [old|] eqn:Hf; simpl; [| done].
        by apply (Hinv f old).
      * rewrite lookup_insert_ne by done. apply Hinv.
  - intros Hg. apply (Hinv g).
    eapply lookup_weaken; [exact Hg | apply Remove_store_subseteq].
  - intros Hg. apply (Hinv g).
    eapply lookup_weaken; [exact Hg | apply Evict_store_subseteq].
Qed.

(** X19.  In every object reachable from a fresh replacer for [n] frames,
    a node with a recorded access sits at a frame id of at least [n] and
    an evictable node at a frame id of at most [n] (as [size_t]): an
    evictable node with a non-empty history can only be the node of frame
    id [n] itself. *)
Theorem reachable_frames_separated n k this f node :
  reachable n k this ->
  node_store_ this !! f = Some node ->
  (history_ node <> [] -> n <= static_cast_size_t f)
  /\ (is_evictable_ node = true -> static_cast_size_t f <= n)
  /\ (history_ node <> [] -> is_evictable_ node = true -> static_cast_size_t f = n).
Proof.
  intros Hreach Hf.
  assert (Hsep : frames_separated this).
  { clear Hf. induction Hreach as [|this this' _ IH Hstep].
    - intros g nd. unfold LRUKReplacer_init. simpl. by rewrite lookup_empty.
    - by apply (step_frames_separated this this'). }
  destruct (reachable_constants n k this Hreach) as [Hn _].
  destruct (Hsep f node Hf) as [Hh He]. rewrite Hn in Hh, He.
  repeat split; auto. intros H1 H2. specialize (Hh H1). specialize (He H2). lia.
Qed.

Lemma reachable_frames_separated_witness :
  static_cast_size_t 3 = 3.
Proof.
  assert (Hn : node_store_ touched_once !! (3 : frame_id_t)
               = Some (mkLRUKNode [1] (-1) 0 true))
    by (vm_compute; reflexivity).
  destruct (reachable_frames_separated 3 2 touched_once 3 _
              touched_once_reachable Hn) as (_ & _ & H).
  apply H; [discriminate | reflexivity].
Defined.

Lemma Evict_curr_size this order v :
  curr_size_ (snd (Evict order v this)) = curr_size_ this
  \/ curr_size_ (snd (Evict order v this)) = SizeT.decr (curr_size_ this).
Proof.
  unfold Evict. destruct (curr_size_ this <=? 0); [by left |].
  generalize (mkEvict_locals false false 0 0). intros l.
  induction order as [|fid rest IH]; simpl; [by left |].
  destruct (node_store_ this !! fid) as [node|]; [| exact IH].
  destruct (is_evictable_ node); simpl; [| exact IH].
  destruct (Evict_select _ _ _ _ _ _) as [l' w].
  destruct (success l'); [by right | by left].
Qed.

Lemma step_in_range this this' :
  step this this' ->
  SizeT.in_range (curr_size_ this) /\ SizeT.in_range (current_timestamp_ this) ->
  SizeT.in_range (curr_size_ this') /\ SizeT.in_range (current_timestamp_ this').
Proof.
  intros Hstep [Hs Hc].
  destruct Hstep as [this f a|this f b|this f|this order v _].
  - destruct (RecordAccess_constants this f a) as (_ & _ & ->).
    split; [done |].
    unfold after, RecordAccess.
    destruct (replacer_size_ this >? static_cast_size_t f); [done |].
    simpl. destruct (node_store_ this !! f); apply wrap_bounds.
  - destruct (SetEvictable_constants this f b) as (_ & _ & ->).
    split; [| done].
    destruct (Z.ltb_spec (replacer_size_ this) (static_cast_size_t f)) as [Hlt|Hge].
    + unfold after. by rewrite (SetEvictable_throws this f b Hlt).
    + rewrite (SetEvictable_curr_size this f b Hge). cbv zeta.
      destruct (eqb _ b); [done |]. destruct b; apply wrap_bounds.
  - destruct (Remove_constants this f) as (_ & _ & ->).
    split; [| done].
    unfold after, Remove.
    destruct (replacer_size_ this <? static_cast_size_t f); [done |].
    destruct (node_store_ this !! f) as [node|]; [| done].
    destruct (is_evictable_ node); done.
  - destruct (Evict_constants this order v) as (_ & _ & ->).
    split; [| done].
    destruct (Evict_curr_size this order v) as [-> | ->]; [done | apply wrap_bounds].
Qed.

(** X20.  No call writes [replacer_size_] or [k_], and the two counters
    stay [size_t] values: in every object reachable from
    [LRUKReplacer(n, k)], [replacer_size_] is [n], [k_] is [k], and
    [curr_size_] and [current_timestamp_] lie in [0, 2^64). *)
Theorem reachable_members n k this :
  reachable n k this ->
  replacer_size_ this = n
  /\ k_ this = k
  /\ SizeT.in_range (curr_size_ this)
  /\ SizeT.in_range (current_timestamp_ this).
Proof.
  intros Hreach.
  destruct (reachable_constants n k this Hreach) as [Hn Hk].
  split; [done |]. split; [done |].
  clear Hn Hk. induction Hreach as [|this this' _ IH Hstep].
  - simpl. unfold SizeT.in_range, SizeT.modulus. lia.
  - by apply (step_in_range this this').
Qed.

Lemma reachable_members_witness :
  replacer_size_ touched_once_pinned_0 = 3
  /\ k_ touched_once_pinned_0 = 2
  /\ SizeT.in_range (curr_size_ touched_once_pinned_0)
  /\ SizeT.in_range (current_timestamp_ touched_once_pinned_0).
Proof.
  exact (reachable_members 3 2 touched_once_pinned_0 touched_once_pinned_0_reachable).
Defined.

(** X21.  Stored histories stay within the window: in every object
    reachable from [LRUKReplacer(n, k)], each stored history has at most
    one entry, hence at most [k] entries whenever [k] is at least 1. *)
Theorem reachable_history_bound n k this f node :
  reachable n k this ->
  node_store_ this !! f = Some node ->
  (length (history_ node) <= 1)%nat
  /\ (1 <= k -> history_size node <= k_ this).
Proof.
  intros Hreach Hf.
  pose proof (reachable_histories_short n k this Hreach f node Hf) as Hshort.
  destruct (reachable_constants n k this Hreach) as [_ Hk].
  split; [exact Hshort |].
  intros H1. unfold history_size. lia.
Qed.

Lemma reachable_history_bound_witness :
  history_size (mkLRUKNode [1] (-1) 0 true) <= k_ touched_once.
Proof.
  assert (Hn : node_store_ touched_once !! (3 : frame_id_t)
               = Some (mkLRUKNode [1] (-1) 0 true))
    by (vm_compute; reflexivity).
  apply (reachable_history_bound 3 2 touched_once 3 _ touched_once_reachable Hn).
  lia.
Defined.

Lemma RecordAccess_stored_result this f a node :
  replacer_size_ this <= static_cast_size_t f ->
  node_store_ this !! f = Some node ->
  RecordAccess f a this
  = (Returns tt, set_current_timestamp (SizeT.incr (current_timestamp_ this)) this).
Proof.
  intros Hge Hf. unfold RecordAccess.
  destruct (Z.gtb_spec (replacer_size_ this) (static_cast_size_t f)); [lia |].
  simpl. rewrite Hf. reflexivity.
Qed.

(** X22.  Accesses to a frame that already has a node are never entered
    into its history: after any number of accepted [RecordAccess] calls on
    that frame, of whatever access types, the object differs from the one
    before only in the clock, which has advanced by the number of calls
    (modulo 2^64). *)
Theorem repeated_access_only_moves_clock this f node (accesses : list AccessType) :
  replacer_size_ this <= static_cast_size_t f ->
  node_store_ this !! f = Some node ->
  SizeT.in_range (current_timestamp_ this) ->
  run (map (OpRecordAccess f) accesses) this
  = set_current_timestamp
      (SizeT.wrap (current_timestamp_ this + Z.of_nat (length accesses))) this.
Proof.
  intros Hge Hf Hr.
  induction accesses as [|a accesses IH] using rev_ind.
  - simpl. rewrite Z.add_0_r, wrap_in_range by done. by destruct this.
  - rewrite map_app, run_app, IH. simpl. unfold after.
    rewrite (RecordAccess_stored_result _ f a node); [| done | done].
    simpl. rewrite wrap_succ, length_app. simpl.
    unfold set_current_timestamp. simpl. do 2 f_equal. lia.
Qed.

Lemma repeated_access_only_moves_clock_witness :
  run (map (OpRecordAccess 3) [Lookup; Index; Unknown]) touched_once
  = set_current_timestamp 4 touched_once.
Proof.
  apply (repeated_access_only_moves_clock touched_once 3
           (mkLRUKNode [1] (-1) 0 true) [Lookup; Index; Unknown]).
  - vm_compute. discriminate.
  - vm_compute. reflexivity.
  - vm_compute. split; [discriminate | reflexivity].
Defined.

(** X23.  With a single evictable node stored, [Evict] does not depend on
    the traversal: any two traversals give the same result. *)
Theorem Evict_single_candidate this fid node order order' v :
  node_store_ this !! fid = Some node ->
  is_evictable_ node = true ->
  (forall g, g <> fid -> passed_over this g) ->
  traversal this order ->
  traversal this order' ->
  Evict order v this = Evict order' v this.
Proof.
  intros Hn He Hothers Ht Ht'.
  assert (Hshape : forall o, traversal this o ->
            Evict o v this = Evict [fid] v this).
  { intros o Ho.
    assert (Hin : fid ∈ o).
    { unfold traversal in Ho. rewrite Ho. apply elem_of_elements, elem_of_dom.
      by eexists. }
    apply list_elem_of_split_l in Hin as (l1 & l2 & -> & Hnotin).
    apply (Evict_decided_by_first_evictable this l1 fid node l2 v); try done.
    apply Forall_forall. intros g Hg. apply Hothers. by intros ->. }
  by rewrite (Hshape order Ht), (Hshape order' Ht').
Qed.

Lemma Evict_single_candidate_witness :
  Evict [0; 3] 9 touched_once_pinned_0 = Evict [3; 0] 9 touched_once_pinned_0.
Proof.
  assert (Hs : node_store_ touched_once_pinned_0
               = {[ 3 := mkLRUKNode [1] (-1) 0 true; 0 := LRUKNode_default ]})
    by (vm_compute; reflexivity).
  apply (Evict_single_candidate touched_once_pinned_0 3 (mkLRUKNode [1] (-1) 0 true)).
  - vm_compute. reflexivity.
  - reflexivity.
  - intros g Hne node Hg. rewrite Hs in Hg.
    rewrite lookup_insert_ne in Hg by done.
    apply lookup_singleton_Some in Hg as [_ <-]. reflexivity.
  - unfold traversal. vm_compute. apply (Permutation_rev [0; 3]).
  - unfold traversal. vm_compute. reflexivity.
Defined.

(** The step an accepted [SetEvictable] applies to [curr_size_]: it
    depends on the flag stored for the frame and on the flag asked for. *)
Lemma size_steps_commute (e1 b1 e2 b2 : bool) (z : Z) :
  (if eqb e2 b2 then (if eqb e1 b1 then z else if b1 then SizeT.incr z else SizeT.decr z)
   else if b2
        then SizeT.incr (if eqb e1 b1 then z else if b1 then SizeT.incr z else SizeT.decr z)
        else SizeT.decr (if eqb e1 b1 then z else if b1 then SizeT.incr z else SizeT.decr z))
  = (if eqb e1 b1 then (if eqb e2 b2 then z else if b2 then SizeT.incr z else SizeT.decr z)
     else if b1
          then SizeT.incr (if eqb e2 b2 then z else if b2 then SizeT.incr z else SizeT.decr z)
          else SizeT.decr (if eqb e2 b2 then z else if b2 then SizeT.incr z else SizeT.decr z)).
Proof.
  destruct e1, b1, e2, b2; simpl; try reflexivity.
  all: by rewrite ?incr_decr, ?decr_incr.
Qed.

(** X24.  [SetEvictable] calls on two different frames commute: in either
    order they leave the same object. *)
Theorem SetEvictable_commute this f b g c :
  f <> g ->
  after (SetEvictable g c) (after (SetEvictable f b) this)
  = after (SetEvictable f b) (after (SetEvictable g c) this).
Proof.
  intros Hne.
  destruct (Z.ltb_spec (replacer_size_ this) (static_cast_size_t f)) as [Hltf|Hgef].
  { assert (Hth : forall r, replacer_size_ r = replacer_size_ this ->
                            after (SetEvictable f b) r = r).
    { intros r Hrs. unfold after. rewrite SetEvictable_throws; [done | by rewrite Hrs]. }
    rewrite (Hth this eq_refl).
    rewrite Hth; [done | apply SetEvictable_constants]. }
  destruct (Z.ltb_spec (replacer_size_ this) (static_cast_size_t g)) as [Hltg|Hgeg].
  { assert (Hth : forall r, replacer_size_ r = replacer_size_ this ->
                            after (SetEvictable g c) r = r).
    { intros r Hrs. unfold after. rewrite SetEvictable_throws; [done | by rewrite Hrs]. }
    rewrite (Hth this eq_refl).
    rewrite Hth; [done | apply SetEvictable_constants]. }
  set (tf := after (SetEvictable f b) this).
  set (tg := after (SetEvictable g c) this).
  destruct (SetEvictable_constants this f b) as (Hrf & Hkf & Hcf).
  destruct (SetEvictable_constants this g c) as (Hrg & Hkg & Hcg).
  fold tf in Hrf, Hkf, Hcf. fold tg in Hrg, Hkg, Hcg.
  assert (Hgeg' : static_cast_size_t g <= replacer_size_ tf) by (by rewrite Hrf).
  assert (Hgef' : static_cast_size_t f <= replacer_size_ tg) by (by rewrite Hrg).
  destruct (SetEvictable_constants tf g c) as (Hr1 & Hk1 & Hc1).
  destruct (SetEvictable_constants tg f b) as (Hr2 & Hk2 & Hc2).
  assert (Hsf : node_store_ tf !! g = node_store_ this !! g).
  { unfold tf. rewrite (SetEvictable_store this f b Hgef).
    by rewrite lookup_insert_ne. }
  assert (Hsg : node_store_ tg !! f = node_store_ this !! f).
  { unfold tg. rewrite (SetEvictable_store this g c Hgeg).
    by rewrite lookup_insert_ne. }
  apply LRUKReplacer_eq; try congruence.
  - rewrite (SetEvictable_store tf g c Hgeg'), (SetEvictable_store tg f b Hgef').
    rewrite Hsf, Hsg. unfold tf, tg.
    rewrite (SetEvictable_store this f b Hgef), (SetEvictable_store this g c Hgeg).
    by apply insert_insert_ne.
  - rewrite (SetEvictable_curr_size tf g c Hgeg'), (SetEvictable_curr_size tg f b Hgef').
    cbv zeta. rewrite Hsf, Hsg. unfold tf, tg.
    rewrite (SetEvictable_curr_size this f b Hgef), (SetEvictable_curr_size this g c Hgeg).
    cbv zeta. apply size_steps_commute.
Qed.

Lemma SetEvictable_commute_witness :
  after (SetEvictable 3 false) (after (SetEvictable 1 true) touched_once)
  = after (SetEvictable 1 true) (after (SetEvictable 3 false) touched_once).
Proof.
  apply (SetEvictable_commute touched_once 1 true 3 false). lia.
Defined.
